(** * yard.curve: point series, area under the curve, coarsening, transforms

    A shallow embedding of [src/yard/curve.py] (Python 2).  A curve object is
    a record holding its [_points] list; methods that assign to
    [self._points] are functions from the object to the updated object and
    either an exception or a return value, so the object left behind by a
    raising call can be inspected.

    Python floats are IEEE 754 binary64 numbers with round-to-nearest-even,
    which is what the primitive [float] type computes; Python integers are
    unbounded and are modelled by [Z]. *)

From Stdlib Require Import ZArith QArith Floats Lia Lqa.
From Stdlib Require Import Qfield Qabs Qpower.
From stdpp Require Import gmap strings list.

Set Warnings "-inexact-float".
Open Scope Z_scope.

(** ** The part of the Python runtime the module relies on *)

Module Py.

(** Exceptions, by class, with the message they carry. *)
Inductive exn : Type :=
| TypeError (msg : string)
| ValueError (msg : string)
| KeyError (key : string)
| IndexError (msg : string)
| OverflowError (msg : string)
| ZeroDivisionError (msg : string).

(** An expression either raises or yields a value. *)
Definition result (A : Type) : Type := (exn + A)%type.

Definition ok {A} (a : A) : result A := inr a.
Definition throw {A} (e : exn) : result A := inl e.

Definition rbind {A B} (m : result A) (k : A -> result B) : result B :=
  match m with
  | inl e => inl e
  | inr a => k a
  end.

(** A method of an object of type [S]: it receives [self] and gives back
    [self] as the call left it, together with the outcome. *)
Definition meth (S A : Type) : Type := S -> S * result A.

Definition ret {S A} (a : A) : meth S A := fun self => (self, inr a).
Definition raise {S A} (e : exn) : meth S A := fun self => (self, inl e).
Definition lift {S A} (r : result A) : meth S A := fun self => (self, r).

Definition bind {S A B} (m : meth S A) (k : A -> meth S B) : meth S B :=
  fun self =>
    match m self with
    | (self', inl e) => (self', inl e)
    | (self', inr a) => k a self'
    end.

(** The values a keyword argument may hold: an integer, a float or
    [None].  (Strings and user objects are left out.) *)
Inductive value : Type :=
| VInt (z : Z)
| VFloat (f : float)
| VNone.

(** [float(z)] for an integer [z]: the nearest binary64 number, ties to
    even; [OverflowError] when [z] is too large to be represented. *)
Definition float_of_int (z : Z) : result float :=
  let f := SF2Prim (binary_normalize prec emax z 0 false) in
  if PrimFloat.is_infinity f
  then throw (OverflowError "long int too large to convert to float")
  else ok f.

(** [int(f)] for a float [f]: truncation towards zero. *)
Definition int_of_float (f : float) : result Z :=
  match Prim2SF f with
  | S754_nan => throw (ValueError "cannot convert float NaN to integer")
  | S754_infinity _ =>
      throw (OverflowError "cannot convert float infinity to integer")
  | S754_zero _ => ok 0
  | S754_finite s m e =>
      let a := if 0 <=? e then Z.pos m * 2 ^ e else Z.pos m / 2 ^ (- e) in
      ok (if s then - a else a)
  end.

(** The builtin [int(v)]. *)
Definition int (v : value) : result Z :=
  match v with
  | VInt z => ok z
  | VFloat f => int_of_float f
  | VNone =>
      throw (TypeError
        "int() argument must be a string or a number, not 'NoneType'")
  end.

(** [a / b] on floats raises on a zero divisor (of either sign). *)
Definition float_div (a b : float) : result float :=
  if PrimFloat.eqb b 0%float
  then throw (ZeroDivisionError "float division by zero")
  else ok (a / b)%float.

(** [a % b] on integers: the result has the sign of [b]. *)
Definition int_mod (a b : Z) : result Z :=
  if b =? 0
  then throw (ZeroDivisionError "integer division or modulo by zero")
  else ok (a mod b).

(** [len(l)]. *)
Definition len {A} (l : list A) : Z := Z.of_nat (length l).

(** [key in d] and [d[key]] on a dictionary. *)
Definition contains {V} (d : gmap string V) (key : string) : bool :=
  bool_decide (is_Some (d !! key)).

Definition dict_getitem {V} (d : gmap string V) (key : string) : result V :=
  match d !! key with
  | Some v => ok v
  | None => throw (KeyError key)
  end.

(** [l[i]]: a negative index counts from the end. *)
Definition getitem {A} (l : list A) (i : Z) : result A :=
  let j := if i <? 0 then i + len l else i in
  if (j <? 0) || (len l <=? j)
  then throw (IndexError "list index out of range")
  else match l !! Z.to_nat j with
       | Some x => ok x
       | None => throw (IndexError "list index out of range")
       end.

(** The indices visited by [l[::k]] on a list of length [n], [k] nonzero:
    [0, k, 2k, ...] below [n] for a positive step, and
    [n-1, n-1+k, ...] down to [0] for a negative one. *)
Definition slice_indices (n k : Z) : list Z :=
  if 0 <? k
  then (fun j => j * k) <$> seqZ 0 ((n + k - 1) / k)
  else (fun j => n - 1 + j * k) <$> seqZ 0 ((n + (- k) - 1) / (- k)).

(** [l[::k]]: a fresh list. *)
Definition slice_step {A} (l : list A) (k : Z) : result (list A) :=
  if k =? 0
  then throw (ValueError "slice step cannot be zero")
  else ok (omap (fun i => l !! Z.to_nat i) (slice_indices (len l) k)).

(** [sys.maxint] of a 64-bit CPython 2. *)
Definition maxint : Z := 2 ^ 63 - 1.

(** [xrange(lo, hi)]: its bounds must fit a C long. *)
Definition xrange (lo hi : Z) : result (list Z) :=
  if (maxint <? hi) || (hi <? - maxint - 1)
  then throw (OverflowError "Python int too large to convert to C long")
  else ok (seqZ lo (hi - lo)).

(** A list comprehension whose element expression may raise: elements
    are evaluated left to right and the first exception ends it. *)
Fixpoint comprehension {A B} (f : A -> result B) (l : list A)
  : result (list B) :=
  match l with
  | [] => ok []
  | a :: l' =>
      rbind (f a) (fun b =>
      rbind (comprehension f l') (fun bs => ok (b :: bs)))
  end.

(** [izip(a, b)] stops with the shorter argument. *)
Definition izip {A B} (a : list A) (b : list B) : list (A * B) := zip a b.

(** The builtin [sum]: starts from [0] and adds from the left. *)
Definition sum {A} (zero : A) (add : A -> A -> A) (l : list A) : A :=
  fold_left add l zero.

End Py.

Import Py.

Declare Scope py_scope.
Delimit Scope py_scope with py.
Notation "'let*' x ':=' m 'in' k" := (bind m (fun x => k))
  (at level 10, x pattern, m at level 100, k at level 200) : py_scope.
Notation "'let?' x ':=' m 'in' k" := (rbind m (fun x => k))
  (at level 10, x pattern, m at level 100, k at level 200) : py_scope.
Open Scope py_scope.

(** ** Trapezoids

    The summation of [Curve.auc], written over the operations it uses;
    the program runs it on binary64 numbers. *)

Section Trapezoid.

Context {A : Type}.
Variables (zero : A) (add sub mul : A -> A -> A) (half : A -> A).

(** [(y0+y1) / 2. * (x0-x1)] *)
Definition trapezoid (pq : (A * A) * (A * A)) : A :=
  let '((x0, y0), (x1, y1)) := pq in
  mul (half (add y0 y1)) (sub x0 x1).

(** [sum(... for (x0, y0), (x1, y1) in izip(points, points[1:]))] *)
Definition auc_of (points : list (A * A)) : A :=
  sum zero add (trapezoid <$> izip points (drop 1 points)).

(** The accumulation the specification describes: walk the adjacent
    pairs in sequence order, adding each pair's trapezoid to the
    running total. *)
Fixpoint accumulate_adjacent (acc : A) (points : list (A * A)) : A :=
  match points with
  | p0 :: ((p1 :: _) as rest) =>
      accumulate_adjacent (add acc (trapezoid (p0, p1))) rest
  | _ => acc
  end.

End Trapezoid.

(** ** class Curve *)

Definition point : Type := (float * float)%type.

Record Curve : Type := { _points : list point }.

(** The [points] property: the getter hands out the list itself, the
    setter stores a copy of the given tuples. *)
Definition get_points : meth Curve (list point) :=
  fun self => (self, ok (_points self)).

Definition set_points (points : list point) : meth Curve unit :=
  fun _ => ({| _points := points |}, ok tt).

(** [self._points.append(p)] *)
Definition append_point (p : point) : meth Curve unit :=
  fun self => ({| _points := _points self ++ [p] |}, ok tt).

(** [Curve.__init__] *)
Definition Curve_init (points : list point) : Curve :=
  {| _points := points |}.

(** [Curve.auc] *)
Definition auc (self : Curve) : float :=
  auc_of 0%float PrimFloat.add PrimFloat.sub PrimFloat.mul
         (fun s => s / 2)%float (_points self).

(** The area as the specification words it, written without reference
    to the code above: walk the series in sequence order and, for each
    adjacent pair ((x0, y0), (x1, y1)), accumulate (y0+y1)/2 * (x0-x1);
    a series with fewer than two points has no pair and gives 0. *)
Fixpoint accumulate_trapezoids (total : float) (points : list point)
  : float :=
  match points with
  | (x0, y0) :: (((x1, y1) :: _) as rest) =>
      accumulate_trapezoids (total + (y0 + y1) / 2 * (x0 - x1))%float rest
  | _ => total
  end.

Definition signed_trapezoidal_sum (points : list point) : float :=
  accumulate_trapezoids 0%float points.

(** The message of the [TypeError] raised on a wrong choice of keywords. *)
Definition usage : string := "use either every=... or until=...".

(** [Curve.coarsen]; [kwds] is the dictionary of keyword arguments.  A
    [return] in the middle of the body is the [ret tt] of its branch. *)
Definition coarsen (kwds : gmap string value) : meth Curve unit :=
  if contains kwds "every" && contains kwds "until"
  then raise (TypeError usage)
  else if negb (contains kwds "every") && negb (contains kwds "until")
  then raise (TypeError usage)
  else
    let* points := get_points in
    if bool_decide (points = [])
    then ret tt
    else if contains kwds "every"
    then
      let* k := lift (let? v := dict_getitem kwds "every" in int v) in
      let* kept := lift (slice_step points k) in
      let* _ := set_points kept in
      let* r := lift (int_mod (len points) k) in
      if negb (r =? 0)
      then let* last := lift (getitem points (-1)) in append_point last
      else ret tt
    else
      let* k := lift (let? v := dict_getitem kwds "until" in int v) in
      let n := len points in
      let* step := lift (let? kf := float_of_int k in
                         let? nf := float_of_int (n - 1) in
                         float_div nf (kf - 1)%float) in
      let* result :=
        lift (let? idxs := xrange 1 (k - 1) in
              comprehension
                (fun idx => let? idxf := float_of_int idx in
                            let? i := int_of_float (idxf * step)%float in
                            getitem points i)
                idxs) in
      let* last := lift (getitem points (-1)) in
      set_points (result ++ [last]).

(** [Curve.transform], [Curve.transform_x], [Curve.transform_y]; the
    callable is a total function. *)
Definition transform (transformation : float -> float -> point)
  : meth Curve unit :=
  fun self =>
    ({| _points :=
          (fun p : point => transformation p.1 p.2) <$> _points self |},
     ok tt).

Definition transform_x (transformation : float -> float) : meth Curve unit :=
  fun self =>
    ({| _points :=
          (fun p : point => (transformation p.1, p.2)) <$> _points self |},
     ok tt).

Definition transform_y (transformation : float -> float) : meth Curve unit :=
  fun self =>
    ({| _points :=
          (fun p : point => (p.1, transformation p.2)) <$> _points self |},
     ok tt).

(** The object a call leaves behind, and its outcome. *)
Definition after {S A} (call : meth S A) (self : S) : S := (call self).1.
Definition outcome {S A} (call : meth S A) (self : S) : result A :=
  (call self).2.

(** ** The class hierarchy and [super] *)

Inductive pyclass : Type :=
| cls_object
| cls_Curve
| cls_BinaryClassifierPerformanceCurve
| cls_ROCCurve
| cls_PrecisionRecallCurve
| cls_AccumulationCurve
| cls_CROCCurve.

#[global] Instance pyclass_eq_dec : EqDecision pyclass.
Proof. solve_decision. Defined.

(** The base named in each [class] statement. *)
Definition base (c : pyclass) : option pyclass :=
  match c with
  | cls_object => None
  | cls_Curve => Some cls_object
  | cls_BinaryClassifierPerformanceCurve => Some cls_Curve
  | cls_ROCCurve | cls_PrecisionRecallCurve | cls_AccumulationCurve
  | cls_CROCCurve => Some cls_BinaryClassifierPerformanceCurve
  end.

(** Method resolution order under single inheritance: the class, then
    its chain of bases.  No chain here is longer than four classes. *)
Fixpoint mro_from (fuel : nat) (c : pyclass) : list pyclass :=
  match fuel with
  | O => [c]
  | S fuel' =>
      match base c with
      | Some b => c :: mro_from fuel' b
      | None => [c]
      end
  end.

Definition mro (c : pyclass) : list pyclass := mro_from 4 c.

Definition isinstance (self_class c : pyclass) : bool :=
  bool_decide (c ∈ mro self_class).

(** [super(c, self)]: the classes that follow [c] in the resolution order
    of the class of [self]; a [TypeError] when [self] is not an instance
    of [c]. *)
Fixpoint following (c : pyclass) (order : list pyclass) : list pyclass :=
  match order with
  | [] => []
  | d :: order' => if decide (d = c) then order' else following c order'
  end.

Definition super (c self_class : pyclass) : result (list pyclass) :=
  if isinstance self_class c
  then ok (following c (mro self_class))
  else throw (TypeError
         "super(type, obj): obj must be an instance or subtype of type").

(** ** class BinaryClassifierPerformanceCurve and its variants

    [yard.data] is outside the module: the dataset type, the confusion
    matrices it iterates over and the matrix accessors are taken as
    given.  Any of them may raise, as a call into that module may. *)

Section Performance.

Context {BinaryConfusionMatrix BinaryClassifierData raw threshold : Type}.
(** [BinaryClassifierData(data)] for data that is not yet structured. *)
Variable structured : raw -> result BinaryClassifierData.
(** [data.iter_confusion_matrices()]: the pairs the generator yields
    and, when it ends by raising instead of stopping, the exception. *)
Variable iter_confusion_matrices :
  BinaryClassifierData ->
  list (threshold * BinaryConfusionMatrix) * option exn.
(** The accessors of a confusion matrix. *)
Variables fpr tpr recall precision fdp :
  BinaryConfusionMatrix -> result float.

(** An object handed in as a metric function: something that can be
    called on a matrix, or an object of some other type. *)
Inductive metric : Type :=
| Callable (f : BinaryConfusionMatrix -> result float)
| NotCallable (type_name : string).

Definition callable (m : metric) : bool :=
  match m with Callable _ => true | NotCallable _ => false end.

Definition call (m : metric) (mat : BinaryConfusionMatrix) : result float :=
  match m with
  | Callable f => f mat
  | NotCallable type_name =>
      throw (TypeError ("'" +:+ type_name +:+ "' object is not callable"))
  end.

Record BinaryClassifierPerformanceCurve : Type := {
  class_of : pyclass;
  curve : Curve;
  _data : BinaryClassifierData;
  x_func : metric;
  y_func : metric
}.

(** [_calculate_points]: the list assigned to [self._points].  The
    metrics are called on each pair as the generator yields it; an
    exception of the generator itself comes after the pairs it
    yielded. *)
Definition _calculate_points (data : BinaryClassifierData)
    (x_func y_func : metric) : result (list point) :=
  let '(pairs, ending) := iter_confusion_matrices data in
  let? points :=
    comprehension
      (fun '(_, mat) => let? x := call x_func mat in
                        let? y := call y_func mat in
                        ok (x, y))
      pairs in
  match ending with
  | Some e => throw e
  | None => ok points
  end.

(** The [data] setter: a [BinaryClassifierData] is taken as it is,
    anything else is handed to its constructor. *)
Definition coerce (data : BinaryClassifierData + raw)
  : result BinaryClassifierData :=
  match data with
  | inl d => ok d
  | inr r => structured r
  end.

(** [BinaryClassifierPerformanceCurve.__init__] *)
Definition BinaryClassifierPerformanceCurve_init (self_class : pyclass)
    (data : BinaryClassifierData + raw) (x_func y_func : metric)
  : result BinaryClassifierPerformanceCurve :=
  if negb (callable x_func)
  then throw (TypeError "x_func must be callable")
  else if negb (callable y_func)
  then throw (TypeError "y_func must be callable")
  else
    let? d := coerce data in
    let? points := _calculate_points d x_func y_func in
    ok {| class_of := self_class; curve := {| _points := points |};
          _data := d; x_func := x_func; y_func := y_func |}.

(** [super(c, self).__init__(data, x_func, y_func)]: the first class
    after [c] provides [__init__]; only the one of
    [BinaryClassifierPerformanceCurve] accepts these arguments. *)
Definition super_init (c self_class : pyclass)
    (data : BinaryClassifierData + raw) (x_func y_func : metric)
  : result BinaryClassifierPerformanceCurve :=
  let? following := super c self_class in
  match following with
  | cls_BinaryClassifierPerformanceCurve :: _ =>
      BinaryClassifierPerformanceCurve_init self_class data x_func y_func
  | _ => throw (TypeError "__init__() takes a different number of arguments")
  end.

(** [ROCCurve.__init__] *)
Definition ROCCurve_init (self_class : pyclass)
    (data : BinaryClassifierData + raw) :=
  super_init cls_ROCCurve self_class data (Callable fpr) (Callable tpr).

(** [PrecisionRecallCurve.__init__] *)
Definition PrecisionRecallCurve_init (self_class : pyclass)
    (data : BinaryClassifierData + raw) :=
  super_init cls_PrecisionRecallCurve self_class data
             (Callable recall) (Callable precision).

(** [AccumulationCurve.__init__]: the source names
    [PrecisionRecallCurve] in its [super] call. *)
Definition AccumulationCurve_init (self_class : pyclass)
    (data : BinaryClassifierData + raw) :=
  super_init cls_PrecisionRecallCurve self_class data
             (Callable fdp) (Callable tpr).

(** Instantiating a class runs its [__init__] on a fresh object of that
    class. *)
Definition ROCCurve (data : BinaryClassifierData + raw) :=
  ROCCurve_init cls_ROCCurve data.

Definition PrecisionRecallCurve (data : BinaryClassifierData + raw) :=
  PrecisionRecallCurve_init cls_PrecisionRecallCurve data.

Definition AccumulationCurve (data : BinaryClassifierData + raw) :=
  AccumulationCurve_init cls_AccumulationCurve data.

(** The point series the specification's table describes for a curve
    with the given pair of accessors: one point per confusion matrix,
    in order, made of the values of the two accessors on it. *)
Definition metric_points (fx fy : BinaryConfusionMatrix -> result float)
    (pairs : list (threshold * BinaryConfusionMatrix))
    (points : list point) : Prop :=
  Forall2 (fun tm p => fx tm.2 = ok p.1 /\ fy tm.2 = ok p.2) pairs points.

End Performance.

(** ** Vocabulary of the properties *)

(** Exactly one of the two keywords of [coarsen] is given. *)
Definition one_mode (kwds : gmap string value) : Prop :=
  (is_Some (kwds !! "every") /\ kwds !! "until" = None)
  \/ (kwds !! "every" = None /\ is_Some (kwds !! "until")).

(** Both keywords are given, or neither is. *)
Definition both_or_neither (kwds : gmap string value) : Prop :=
  (is_Some (kwds !! "every") /\ is_Some (kwds !! "until"))
  \/ (kwds !! "every" = None /\ kwds !! "until" = None).

Definition is_type_error (e : exn) : bool :=
  match e with TypeError _ => true | _ => false end.

(** What [int(None)] raises. *)
Definition int_of_None : exn :=
  TypeError "int() argument must be a string or a number, not 'NoneType'".

(** The no-discrimination series: every point on the line y = x, the
    first x equal to one, the last x equal to zero, and x never
    increasing along the sequence. *)
Section Diagonal.

Context {A : Type}.
Variables (zero one : A) (eqb leb : A -> A -> bool).

Fixpoint descending (xs : list A) : bool :=
  match xs with
  | x0 :: ((x1 :: _) as rest) => leb x1 x0 && descending rest
  | _ => true
  end.

Definition no_discrimination (points : list (A * A)) : bool :=
  forallb (fun p => eqb p.2 p.1) points
  && match head points with Some p => eqb p.1 one | None => false end
  && match last points with Some p => eqb p.1 zero | None => false end
  && descending (fst <$> points).

End Diagonal.

Definition on_diagonal (self : Curve) : bool :=
  no_discrimination 0%float 1%float PrimFloat.eqb PrimFloat.leb
                    (_points self).

(** ** The number a binary64 value stands for

    [Prim2SF] gives the sign, mantissa and exponent of a float; a finite
    float stands for the rational number (-1)^s * m * 2^e.  Infinities
    and NaN stand for no number. *)

Definition sign_of (s : bool) : Q := if s then (-1)%Q else 1%Q.

Definition SFvalue (x : spec_float) : option Q :=
  match x with
  | S754_zero _ => Some 0%Q
  | S754_finite s m e => Some (sign_of s * inject_Z (Z.pos m) * 2 ^ e)%Q
  | _ => None
  end.

Definition value_of (f : float) : option Q := SFvalue (Prim2SF f).

(** [x] stands for a number equal to [v]. *)
Definition SFis (x : spec_float) (v : Q) : Prop :=
  match SFvalue x with Some w => (w == v)%Q | None => False end.

Definition value_is (f : float) (v : Q) : Prop := SFis (Prim2SF f) v.

(** Zero, a positive finite number or plus infinity. *)
Definition SFnonneg (x : spec_float) : bool :=
  match x with
  | S754_zero _ | S754_finite false _ _ | S754_infinity false => true
  | _ => false
  end.

Definition nonneg (x : float) : Prop := SFnonneg (Prim2SF x) = true.

(** The float [2.] of [/ 2.]. *)
Definition SFtwo : spec_float := S754_finite false 4503599627370496 (-51).

(** What the rounding of [SpecFloat] works on: a mantissa shifted right
    by [k] binary places keeps the quotient, the bit last shifted out
    and whether anything nonzero was shifted out before it.  [V] is the
    number shifted, counted in halves of the unit of the mantissa. *)
Definition shifted (V k : Z) (mrs : shr_record) : Prop :=
  shr_m mrs = V / 2 ^ (k + 1)
  /\ shr_r mrs = Z.odd (V / 2 ^ k)
  /\ shr_s mrs = negb (V mod 2 ^ k =? 0).

(** The two locations that occur below: exactly on a mantissa, or
    exactly half way to the next one. *)
Definition loc_of_half (h : bool) : location :=
  if h then loc_Inexact Eq else loc_Exact.

(** The float made of a sign, a mantissa that may be zero and an
    exponent. *)
Definition rounded (sx : bool) (m e : Z) : spec_float :=
  match m with
  | 0 => S754_zero sx
  | Z.pos p => S754_finite sx p e
  | Z.neg _ => S754_nan
  end.

(** The points after one whose coordinates are both [a]: each lies on
    the line y = x, not to the right of the one before it, and the last
    one is at 0. *)
Fixpoint diagonal_from (a : Q) (rest : list point) : Prop :=
  match rest with
  | [] => (a == 0)%Q
  | (x, y) :: rest' =>
      exists b : Q, value_is x b /\ value_is y b /\ (0 <= b <= a)%Q
                    /\ diagonal_from b rest'
  end.

(** How far from 1/2 the area of a series of [n] points on the diagonal
    can be: five roundings of at most 2^-52 for each adjacent pair. *)
Definition auc_tolerance (n : nat) : Q :=
  (inject_Z (Z.of_nat n - 1) * (5 # 4503599627370496))%Q.

(** ** Further vocabulary *)

(** Mapping over the value of an expression that may raise. *)
Definition rmap {A B} (g : A -> B) (r : result A) : result B :=
  match r with inl e => inl e | inr a => inr (g a) end.

(** ** The [data] property, inherited methods and [CROCCurve] *)

Section PerformanceState.

Context {BinaryConfusionMatrix BinaryClassifierData raw threshold : Type}.
Variable structured : raw -> result BinaryClassifierData.
Variable iter_confusion_matrices :
  BinaryClassifierData ->
  list (threshold * BinaryConfusionMatrix) * option exn.
Variables fpr tpr : BinaryConfusionMatrix -> result float.

(** The [data] setter: [self._data] is assigned first, then
    [_calculate_points] builds the new list and assigns it to
    [self._points]; if the coercion raises nothing has changed, if the
    calculation raises only [_data] has. *)
Definition set_data (data : BinaryClassifierData + raw)
  : meth (@BinaryClassifierPerformanceCurve BinaryConfusionMatrix
            BinaryClassifierData) unit :=
  fun self =>
    match coerce structured data with
    | inl e => (self, inl e)
    | inr d =>
        match _calculate_points iter_confusion_matrices d
                (x_func self) (y_func self) with
        | inl e =>
            ({| class_of := class_of self; curve := curve self; _data := d;
                x_func := x_func self; y_func := y_func self |}, inl e)
        | inr points =>
            ({| class_of := class_of self; curve := {| _points := points |};
                _data := d; x_func := x_func self; y_func := y_func self |},
             ok tt)
        end
    end.

(** A method inherited from [Curve] works on the [_points] of the
    object and leaves its other attributes alone. *)
Definition inherited {A} (m : meth Curve A)
  : meth (@BinaryClassifierPerformanceCurve BinaryConfusionMatrix
            BinaryClassifierData) A :=
  fun self =>
    let '(c, r) := m (curve self) in
    ({| class_of := class_of self; curve := c; _data := _data self;
        x_func := x_func self; y_func := y_func self |}, r).

(** [yard.transform.ExponentialTransformation] is outside the module: an
    object built from the magnification factor and called on a number;
    building it and calling it may raise. *)
Context {factor : Type}.
Variable ExponentialTransformation :
  factor -> result (float -> result float).

(** [CROCCurve._transformed_fpr] *)
Definition _transformed_fpr (_transformation : float -> result float)
    (matrix : BinaryConfusionMatrix) : result float :=
  let? rate := fpr matrix in _transformation rate.

(** [CROCCurve.__init__]; the object is returned together with its
    [_transformation] attribute.  ([alpha] defaults to 7 in the source.) *)
Definition CROCCurve_init (self_class : pyclass)
    (data : BinaryClassifierData + raw) (alpha : factor) :=
  let? _transformation := ExponentialTransformation alpha in
  let? self := super_init structured iter_confusion_matrices
                 cls_CROCCurve self_class data
                 (Callable (_transformed_fpr _transformation))
                 (Callable tpr) in
  ok (self, _transformation).

Definition CROCCurve (data : BinaryClassifierData + raw) (alpha : factor) :=
  CROCCurve_init cls_CROCCurve data alpha.

End PerformanceState.

(** ** Axis labels: [yard.utils.axis_label] and [infer_label]

    A function object is known by its name and the attributes attached
    to it. *)

Record pyfunction : Type := {
  __name__ : string;
  __dict__ : gmap string string
}.

(** [axis_label(label)(func)]: sets [func.__axis_label__] and returns
    [func]. *)
Definition axis_label (label : string) (func : pyfunction) : pyfunction :=
  {| __name__ := __name__ func;
     __dict__ := <["__axis_label__" := label]> (__dict__ func) |}.

(** [infer_label] of [BinaryClassifierPerformanceCurve.get_empty_figure]:
    the attribute if there is one, the name of the function otherwise. *)
Definition infer_label (func : pyfunction) : string :=
  match __dict__ func !! "__axis_label__" with
  | Some label => label
  | None => __name__ func
  end.

(** The function object behind [CROCCurve._transformed_fpr], as its
    [def] statement and decorator leave it. *)
Definition _transformed_fpr_function : pyfunction :=
  axis_label "Transformed false positive rate"
             {| __name__ := "_transformed_fpr"; __dict__ := ∅ |}.

(** ** [yard.utils.itersubclasses]

    The generator is modelled by the list of classes it yields when run
    to its end, together with the [_seen] set as the call leaves it: the
    set is one object shared by all recursive calls.  [fuel] bounds the
    depth of the recursion; [None] means the bound was reached. *)

Section Subclasses.

Context {C : Type} {C_eq_dec : EqDecision C} {C_countable : Countable C}.

(** [cls.__subclasses__()]: the direct subclasses of a class. *)
Variable __subclasses__ : C -> list C.

(** The [for sub in subs] loop; [recur] is the recursive call. *)
Fixpoint for_subs (recur : C -> gset C -> option (list C * gset C))
    (subs : list C) (_seen : gset C) : option (list C * gset C) :=
  match subs with
  | [] => Some ([], _seen)
  | sub :: subs' =>
      if decide (sub ∈ _seen)
      then for_subs recur subs' _seen
      else
        match recur sub ({[sub]} ∪ _seen) with
        | None => None
        | Some (below, _seen') =>
            match for_subs recur subs' _seen' with
            | None => None
            | Some (rest, _seen'') => Some (sub :: below ++ rest, _seen'')
            end
        end
  end.

Fixpoint itersubclasses_from (fuel : nat) (cls : C) (_seen : gset C)
  : option (list C * gset C) :=
  match fuel with
  | O => None
  | S fuel' => for_subs (itersubclasses_from fuel') (__subclasses__ cls) _seen
  end.

(** The argument of a call: a class, or some other object, of which only
    the [repr] matters. *)
Inductive argument : Type :=
| AClass (cls : C)
| NotAClass (repr : string).

(** [itersubclasses(cls)], with [_seen] left to its default. *)
Definition itersubclasses (fuel : nat) (cls : argument)
  : result (option (list C)) :=
  match cls with
  | NotAClass repr =>
      throw (TypeError
        ("itersubclasses must be called with new-style classes, not "
         +:+ String.substring 0 100 repr))
  | AClass c => ok (fst <$> itersubclasses_from fuel c ∅)
  end.

(** [sub] is a direct subclass of [cls]. *)
Definition direct_subclass (cls sub : C) : Prop := sub ∈ __subclasses__ cls.

(** What a traversal started on the classes [start] with the set [seen]
    has done when it yielded [ys] and left the set [seen']: the set grew
    by the classes yielded; these are distinct, were not seen before and
    are reachable from [start]; and every class of [start] and every
    direct subclass of a yielded class is in the set. *)
Definition traversed (start : list C) (seen : gset C)
    (ys : list C) (seen' : gset C) : Prop :=
  seen' = seen ∪ list_to_set ys
  /\ NoDup ys
  /\ (forall y, y ∈ ys -> y ∉ seen)
  /\ (forall y, y ∈ ys -> exists s, s ∈ start /\ rtc direct_subclass s y)
  /\ (forall s, s ∈ start -> s ∈ seen')
  /\ (forall y z, y ∈ ys -> direct_subclass y z -> z ∈ seen').

End Subclasses.

(** ** [yard.utils.endless_generator]

    A call of [func] with the given arguments is a function of whatever
    state it reads and changes, returning the items of one batch.  A generator is its
    buffer and that state. *)

Section EndlessGenerator.

Context {A W : Type}.
Variable func : W -> list A * W.

(** One [next()]: the item and the generator afterwards.  [fuel] bounds
    the number of consecutive calls of [func]; [None] means they all
    returned nothing. *)
Fixpoint next (fuel : nat) (buffer : list A) (w : W)
  : option (A * (list A * W)) :=
  match buffer with
  | x :: buffer' => Some (x, (buffer', w))
  | [] =>
      match fuel with
      | O => None
      | S fuel' => let '(items, w') := func w in next fuel' items w'
      end
  end.

(** The first [n] items of the generator. *)
Fixpoint take_items (fuel n : nat) (buffer : list A) (w : W)
  : option (list A * (list A * W)) :=
  match n with
  | O => Some ([], (buffer, w))
  | S n' =>
      match next fuel buffer w with
      | None => None
      | Some (x, (buffer', w')) =>
          match take_items fuel n' buffer' w' with
          | None => None
          | Some (xs, generator) => Some (x :: xs, generator)
          end
      end
  end.

(** The items of the first [m] calls of [func], and the state after
    them. *)
Fixpoint batches (m : nat) (w : W) : list A * W :=
  match m with
  | O => ([], w)
  | S m' =>
      let '(items, w') := func w in
      let '(more, w'') := batches m' w' in
      (items ++ more, w'')
  end.

End EndlessGenerator.

(** The hierarchy of the docstring of [itersubclasses]: B and C derive
    from A, D from B and C, E from D. *)
Definition docstring_subclasses (cls : string) : list string :=
  if String.eqb cls "A" then ["B"; "C"]
  else if String.eqb cls "B" then ["D"]
  else if String.eqb cls "C" then ["D"]
  else if String.eqb cls "D" then ["E"]
  else [].

(** ** Plotting: [plot_on_axes], [get_figure], [show]

    matplotlib is outside the module.  Its figures, axes and drawn
    artists are opaque, and each call into it is an action on its state
    that may raise.  The plotting methods can also raise two exceptions
    that the rest of the module cannot. *)

Inductive plot_error : Type :=
| Raised (e : exn)
| UnboundLocalError (msg : string)
| AttributeError (msg : string).

(** A keyword value of the plotting methods. *)
Inductive object : Type :=
| ONone
| OBool (b : bool)
| OInt (z : Z)
| OStr (s : string).

Definition act (W A : Type) : Type := W -> W * (plot_error + A).

Definition pure {W A} (a : A) : act W A := fun w => (w, inr a).
Definition fail {W A} (e : plot_error) : act W A := fun w => (w, inl e).
Definition evaluate {W A} (r : plot_error + A) : act W A := fun w => (w, r).

Definition and_then {W A B} (m : act W A) (k : A -> act W B) : act W B :=
  fun w =>
    match m w with
    | (w', inl e) => (w', inl e)
    | (w', inr a) => k a w'
    end.

Notation "'let!' x ':=' m 'in' k" := (and_then m (fun x => k))
  (at level 10, x pattern, m at level 100, k at level 200) : py_scope.

(** [xs, ys = zip( *self.points)]: the unpacking needs the two tuples
    that [zip] gives for a non-empty list of pairs. *)
Definition unzip_points (points : list point)
  : plot_error + (list float * list float) :=
  match points with
  | [] => inl (Raised (ValueError "need more than 0 values to unpack"))
  | _ :: _ => inr (fst <$> points, snd <$> points)
  end.

(** [self._data.title] on an instance of [Curve] itself, which has no
    [_data]. *)
Definition Curve_data_title : plot_error + option string :=
  inl (AttributeError "'Curve' object has no attribute '_data'").

Section Plotting.

Context {World Figure Axes Artist : Type}.
(** [self.get_empty_figure( *args, **kwds)], of whichever class. *)
Variable get_empty_figure :
  list object -> gmap string object -> act World Figure.
(** [fig.get_axes()], [axes.plot(xs, ys, style)],
    [axes.legend(curve, (label, ), legend)], [fig.show()]. *)
Variable get_axes : Figure -> act World (list Axes).
Variable axes_plot :
  Axes -> list float -> list float -> object -> act World Artist.
Variable axes_legend : Axes -> Artist -> string -> object -> act World unit.
Variable figure_show : Figure -> act World unit.

(** [Curve.plot_on_axes]; [data_title] is what [self._data.title]
    evaluates to on the object at hand. *)
Definition plot_on_axes (points : list point)
    (data_title : plot_error + option string)
    (axes : Axes) (style legend : object) : act World Artist :=
  let! xy := evaluate (unzip_points points) in
  let! curve := axes_plot axes xy.1 xy.2 style in
  let legend := match legend with OBool true => OInt 0 | _ => legend end in
  match legend with
  | ONone | OBool false => pure curve
  | _ =>
      let! label := evaluate data_title in
      match label with
      | Some label =>
          let! _ := axes_legend axes curve label legend in pure curve
      | None => pure curve
      end
  end.

(** [Curve.get_figure]: the local [legend] is bound only when the
    keyword is given. *)
Definition get_figure (points : list point)
    (data_title : plot_error + option string)
    (args : list object) (kwds : gmap string object) : act World Figure :=
  let legend := kwds !! "legend" in
  let kwds := delete "legend" kwds in
  let! fig := get_empty_figure args kwds in
  let! all_axes := get_axes fig in
  let! axes :=
    evaluate (match all_axes with
              | axes :: _ => inr axes
              | [] => inl (Raised (IndexError "list index out of range"))
              end) in
  let! legend :=
    match legend with
    | Some legend => pure legend
    | None =>
        fail (UnboundLocalError
                "local variable 'legend' referenced before assignment")
    end in
  let! _ := plot_on_axes points data_title axes (OStr "r-") legend in
  pure fig.

(** [Curve.show] *)
Definition show (points : list point)
    (data_title : plot_error + option string)
    (args : list object) (kwds : gmap string object) : act World unit :=
  let! fig := get_figure points data_title args kwds in
  figure_show fig.

End Plotting.

(** * Properties *)

(** ** Runtime helpers *)

Lemma contains_true {V} (d : gmap string V) key :
  contains d key = true <-> is_Some (d !! key).
Proof. unfold contains. apply bool_decide_eq_true. Qed.

Lemma contains_false {V} (d : gmap string V) key :
  contains d key = false <-> d !! key = None.
Proof.
  unfold contains. rewrite bool_decide_eq_false, eq_None_not_Some. tauto.
Qed.

Lemma len_nonneg {A} (l : list A) : 0 <= len l.
Proof. unfold len. lia. Qed.

Lemma len_pos {A} (l : list A) : l <> [] -> 0 < len l.
Proof. destruct l; [congruence | unfold len; simpl; lia]. Qed.

(** On a non-empty list [l[-1]] is the last element and does not raise. *)
Lemma getitem_last {A} (l : list A) :
  l <> [] -> exists x, getitem l (-1) = ok x /\ last l = Some x.
Proof.
  intros Hne. pose proof (len_pos l Hne) as Hpos. unfold getitem.
  change (-1 <? 0) with true. cbv iota.
  destruct (Z.ltb_spec (-1 + len l) 0) as [? | _]; [lia |].
  destruct (Z.leb_spec (len l) (-1 + len l)) as [? | _]; [lia |].
  cbn [orb].
  replace (Z.to_nat (-1 + len l)) with (pred (length l)) by (unfold len; lia).
  rewrite <- last_lookup.
  destruct (last l) as [x |] eqn:Hl; [eauto |].
  apply last_None in Hl. congruence.
Qed.

Lemma comprehension_length {A B} (f : A -> result B) l bs :
  comprehension f l = ok bs -> length bs = length l.
Proof.
  revert bs. induction l as [| a l IH]; intros bs; simpl.
  - intros [= <-]. reflexivity.
  - destruct (f a) as [e | b]; simpl; [discriminate |].
    destruct (comprehension f l) as [e | bs']; simpl; [discriminate |].
    intros [= <-]. simpl. f_equal. apply IH. reflexivity.
Qed.

(** A comprehension returns a list exactly when every element returns;
    the list holds the results in order. *)
Lemma comprehension_ok {A B} (f : A -> result B) l bs :
  comprehension f l = ok bs <-> Forall2 (fun a b => f a = ok b) l bs.
Proof.
  revert bs. induction l as [| a l IH]; intros bs; simpl.
  - split; [intros [= <-]; constructor | intros Hbs; inversion Hbs; reflexivity].
  - split.
    + destruct (f a) as [e | b] eqn:Hb; simpl; [discriminate |].
      destruct (comprehension f l) as [e | bs'] eqn:Hl; simpl;
        [discriminate |].
      intros [= <-]. constructor; [exact Hb | apply IH; reflexivity].
    + intros Hbs. inversion Hbs as [| a' b l' bs' Hb Hrest]; subst.
      rewrite Hb. simpl. apply IH in Hrest. rewrite Hrest. reflexivity.
Qed.

(** When no element raises, a comprehension is a map. *)
Lemma comprehension_total {A B} (f : A -> result B) (g : A -> B) l :
  (forall a, f a = ok (g a)) -> comprehension f l = ok (g <$> l).
Proof.
  intros Hf. induction l as [| a l IH]; [reflexivity |].
  simpl. rewrite Hf, IH. reflexivity.
Qed.

(** An exception of a comprehension is the exception of one element. *)
Lemma comprehension_throw {A B} (f : A -> result B) l e :
  comprehension f l = throw e -> exists a, a ∈ l /\ f a = throw e.
Proof.
  induction l as [| a l IH]; simpl; [discriminate |].
  destruct (f a) as [e' | b] eqn:Hfa; simpl.
  - intros [= ->]. exists a. split; [left | exact Hfa].
  - destruct (comprehension f l) as [e' | bs']; simpl; [| discriminate].
    intros [= ->]. destruct IH as (a' & Hin & Ha'); [reflexivity |].
    exists a'. split; [right; exact Hin | exact Ha'].
Qed.

(** ** Area under the curve *)

Section TrapezoidFacts.

Context {A : Type}.
Variables (zero : A) (add sub mul : A -> A -> A) (half : A -> A).

Lemma fold_adjacent acc (points : list (A * A)) :
  fold_left add (trapezoid add sub mul half <$> izip points (drop 1 points))
            acc
  = accumulate_adjacent add sub mul half acc points.
Proof.
  revert acc. induction points as [| p0 rest IH]; intros acc; [reflexivity |].
  destruct rest as [| p1 rest]; [reflexivity |].
  specialize (IH (add acc (trapezoid add sub mul half (p0, p1)))).
  exact IH.
Qed.

Lemma auc_of_accumulate (points : list (A * A)) :
  auc_of zero add sub mul half points
  = accumulate_adjacent add sub mul half zero points.
Proof. unfold auc_of, sum. apply fold_adjacent. Qed.

End TrapezoidFacts.

Lemma accumulate_adjacent_trapezoids (points : list point) :
  forall total : float,
    accumulate_adjacent PrimFloat.add PrimFloat.sub PrimFloat.mul
                        (fun s => s / 2)%float total points
    = accumulate_trapezoids total points.
Proof.
  induction points as [| [x0 y0] rest IH]; intros total; [reflexivity |].
  destruct rest as [| [x1 y1] rest]; [reflexivity |].
  exact (IH _).
Qed.

(** C1. [auc] is the signed trapezoidal sum over the adjacent pairs of the
    series taken in sequence order, each pair ((x0,y0), (x1,y1)) adding
    (y0+y1)/2 * (x0-x1) to the running total, and it is 0 for the empty
    series and for every one-point series. *)
Theorem auc_signed_trapezoidal_sum :
  (forall self : Curve, auc self = signed_trapezoidal_sum (_points self))
  /\ auc {| _points := [] |} = 0%float
  /\ (forall p : point, auc {| _points := [p] |} = 0%float).
Proof.
  split; [| split].
  - intros self. unfold auc, signed_trapezoidal_sum.
    rewrite auc_of_accumulate. apply accumulate_adjacent_trapezoids.
  - reflexivity.
  - intros p. reflexivity.
Qed.

(** C8 as stated fails in binary64: the series x = 1.0, 0.3, 0.0 on the
    line y = x has an area of 0.49999999999999994, not 0.5. *)
Lemma auc_diagonal_not_half :
  on_diagonal {| _points := [(1, 1); (0.3, 0.3); (0, 0)]%float |} = true
  /\ auc {| _points := [(1, 1); (0.3, 0.3); (0, 0)]%float |}
     = 0.49999999999999994%float
  /\ auc {| _points := [(1, 1); (0.3, 0.3); (0, 0)]%float |} <> 0.5%float.
Proof.
  split; [vm_compute; reflexivity |]. split; [vm_compute; reflexivity |].
  intros H. apply (f_equal (fun f => PrimFloat.eqb f 0.5)) in H.
  vm_compute in H. discriminate.
Qed.

(** *** The area of the no-discrimination curve

    The sum of [auc] is rounded at every operation, so on the line
    y = x it is close to 1/2 rather than equal to it.  The bound is
    obtained from the definitions of [SpecFloat], which the primitive
    operations are specified to follow. *)

(** *** Binary digits *)

Lemma digits2_pos_bounds (p : positive) :
  2 ^ (Z.pos (digits2_pos p) - 1) <= Z.pos p < 2 ^ Z.pos (digits2_pos p).
Proof.
  induction p as [p IH | p IH |]; simpl digits2_pos.
  - rewrite Pos2Z.inj_succ. replace (Z.succ (Z.pos (digits2_pos p)) - 1)
      with (Z.succ (Z.pos (digits2_pos p) - 1)) by lia.
    rewrite !Z.pow_succ_r by lia. lia.
  - rewrite Pos2Z.inj_succ. replace (Z.succ (Z.pos (digits2_pos p)) - 1)
      with (Z.succ (Z.pos (digits2_pos p) - 1)) by lia.
    rewrite !Z.pow_succ_r by lia. lia.
  - simpl. lia.
Qed.

Lemma Zdigits2_bounds (m : Z) :
  0 <= m -> 0 <= Zdigits2 m /\ m < 2 ^ Zdigits2 m
            /\ (0 < m -> 1 <= Zdigits2 m /\ 2 ^ (Zdigits2 m - 1) <= m).
Proof.
  destruct m as [| p | p]; simpl; intros H; try lia.
  pose proof (digits2_pos_bounds p). lia.
Qed.

(** *** Shifting a mantissa right and rounding it *)

Lemma shr_1_nonneg m r s :
  0 <= m ->
  shr_1 {| shr_m := m; shr_r := r; shr_s := s |}
  = {| shr_m := m / 2; shr_r := Z.odd m; shr_s := r || s |}.
Proof.
  intros H. rewrite <- Z.div2_div.
  destruct m as [| [p | p |] | p]; try reflexivity. lia.
Qed.

Lemma shifted_shr_1 V k mrs :
  0 <= V -> 0 <= k -> shifted V k mrs -> shifted V (k + 1) (shr_1 mrs).
Proof.
  intros HV Hk (Hm & Hr & Hs). destruct mrs as [m r s].
  cbn [shr_m shr_r shr_s] in *.
  assert (Hpos : 0 < 2 ^ k) by (apply Z.pow_pos_nonneg; lia).
  assert (Hpos1 : 0 < 2 ^ (k + 1)) by (apply Z.pow_pos_nonneg; lia).
  assert (Hm0 : 0 <= m) by (subst m; apply Z.div_pos; lia).
  rewrite shr_1_nonneg by exact Hm0. unfold shifted.
  cbn [shr_m shr_r shr_s].
  assert (Hk1 : 2 ^ (k + 1) = 2 ^ k * 2) by (rewrite Z.pow_add_r by lia; lia).
  assert (Hk2 : 2 ^ (k + 1 + 1) = 2 ^ (k + 1) * 2)
    by (rewrite (Z.pow_add_r 2 (k + 1) 1) by lia; lia).
  split; [| split].
  - subst m. rewrite Hk2, Z.div_div by lia. reflexivity.
  - subst m. reflexivity.
  - subst r s. rewrite Hk1. rewrite Z.rem_mul_r by lia.
    rewrite Zmod_odd. pose proof (Z.mod_pos_bound V (2 ^ k) Hpos) as Hb.
    destruct (Z.odd (V / 2 ^ k)); simpl.
    + symmetry. apply negb_true_iff, Z.eqb_neq. lia.
    + f_equal. f_equal. lia.
Qed.

Lemma shifted_iter_pos V (p : positive) :
  0 <= V ->
  forall k mrs, 0 <= k -> shifted V k mrs ->
                shifted V (k + Z.pos p) (SpecFloat.iter_pos shr_1 p mrs).
Proof.
  intros HV. induction p as [p IH | p IH |]; intros k mrs Hk H; simpl.
  - replace (k + Z.pos p~1) with (k + 1 + Z.pos p + Z.pos p) by lia.
    apply IH; [lia |]. apply IH; [lia |]. apply shifted_shr_1; assumption.
  - replace (k + Z.pos p~0) with (k + Z.pos p + Z.pos p) by lia.
    apply IH; [lia |]. apply IH; assumption.
  - apply shifted_shr_1; assumption.
Qed.

Lemma shifted_start mx (h : bool) :
  0 <= mx ->
  shifted (2 * mx + Z.b2z h) 0 (shr_record_of_loc mx (loc_of_half h)).
Proof.
  intros H. unfold shifted. rewrite Z.pow_0_r, Z.pow_1_r, Z.div_1_r, Z.mod_1_r.
  destruct h; simpl shr_record_of_loc; simpl shr_m; simpl shr_r; simpl shr_s;
    simpl Z.b2z.
  - split; [| split; [| reflexivity]].
    + apply Z.div_unique with (r := 1); lia.
    + rewrite Z.add_comm, Z.odd_add_mul_2. reflexivity.
  - split; [| split; [| reflexivity]].
    + rewrite Z.add_0_r, Z.mul_comm, Z.div_mul by lia. reflexivity.
    + rewrite Z.add_0_r, Z.odd_mul. reflexivity.
Qed.

Lemma shifted_shr V mx h ex n :
  0 <= mx -> V = 2 * mx + Z.b2z h ->
  let '(mrs, e') := shr (shr_record_of_loc mx (loc_of_half h)) ex n in
  shifted V (Z.max 0 n) mrs /\ e' = ex + Z.max 0 n.
Proof.
  intros Hmx ->. pose proof (shifted_start mx h Hmx) as H0.
  destruct n as [| p | p]; simpl shr.
  - split; [exact H0 | simpl; lia].
  - split; [| lia]. replace (Z.max 0 (Z.pos p)) with (0 + Z.pos p) by lia.
    apply shifted_iter_pos; [destruct h; simpl; lia | lia | exact H0].
  - split; [exact H0 | lia].
Qed.

(** Rounding to nearest, ties to even, of what was shifted out. *)
Lemma round_nearest_even_shifted V k mrs :
  0 <= V -> 0 <= k -> shifted V k mrs ->
  let R := round_nearest_even (shr_m mrs) (loc_of_shr_record mrs) in
  V / 2 ^ (k + 1) <= R <= V / 2 ^ (k + 1) + 1
  /\ Z.abs (R * 2 ^ (k + 1) - V) <= 2 ^ k.
Proof.
  intros HV Hk (Hm & Hr & Hs). destruct mrs as [m r s]. simpl in *.
  assert (Hpos : 0 < 2 ^ k) by (apply Z.pow_pos_nonneg; lia).
  assert (Hk1 : 2 ^ (k + 1) = 2 ^ k * 2) by (rewrite Z.pow_add_r by lia; lia).
  pose proof (Z.div_mod V (2 ^ (k + 1)) ltac:(lia)) as Hdm.
  rewrite <- Hm in *.
  assert (HW : V mod 2 ^ (k + 1)
               = V mod 2 ^ k + 2 ^ k * (if r then 1 else 0)).
  { rewrite Hk1 at 1. rewrite Z.rem_mul_r by lia. rewrite Zmod_odd, <- Hr.
    reflexivity. }
  pose proof (Z.mod_pos_bound V (2 ^ k) Hpos) as Hb.
  assert (Hs' : s = false -> V mod 2 ^ k = 0).
  { intros ->. symmetry in Hs. apply negb_false_iff, Z.eqb_eq in Hs.
    exact Hs. }
  destruct r, s; simpl; try (destruct (Z.even m)); try specialize (Hs' eq_refl);
    split; nia.
Qed.

(** *** [binary_round_aux] in binary64 *)

Lemma fexp_binary64 x : fexp prec emax x = Z.max (x - 53) (-1074).
Proof. reflexivity. Qed.

Lemma Zdigits2_le m d : 0 <= m -> 0 <= d -> m < 2 ^ d -> Zdigits2 m <= d.
Proof.
  intros Hm Hd Hlt. destruct (Zdigits2_bounds m Hm) as (H0 & _ & Hlow).
  destruct (Z.eq_dec m 0) as [-> | Hne]; [simpl; lia |].
  destruct (Hlow ltac:(lia)) as [_ Hlow'].
  destruct (Z.le_gt_cases (Zdigits2 m) d) as [H | H]; [exact H |].
  assert (2 ^ d <= 2 ^ (Zdigits2 m - 1)) by (apply Z.pow_le_mono_r; lia).
  lia.
Qed.

Lemma binary_round_aux_spec sx mx ex h :
  0 <= mx -> Zdigits2 mx + ex <= 2 -> (h = true -> ex <= -51) ->
  exists m e j k,
    binary_round_aux prec emax sx mx ex (loc_of_half h) = rounded sx m e
    /\ 0 <= m /\ 0 <= j /\ e = ex - 1 + j /\ 0 <= k
    /\ Z.abs (m * 2 ^ j - (2 * mx + Z.b2z h)) <= 2 ^ k
    /\ (ex + k <= -51 \/ m * 2 ^ j = 2 * mx + Z.b2z h).
Proof.
  intros Hmx Hd Hh. set (V := 2 * mx + Z.b2z h).
  assert (HV : 0 <= V) by (unfold V; destruct h; simpl; lia).
  unfold binary_round_aux, shr_fexp. rewrite fexp_binary64.
  set (n1 := Z.max (Zdigits2 mx + ex - 53) (-1074) - ex).
  pose proof (shifted_shr V mx h ex n1 Hmx eq_refl) as Hshr.
  destruct (shr (shr_record_of_loc mx (loc_of_half h)) ex n1) as [mrs e'].
  destruct Hshr as [Hshifted He']. set (k := Z.max 0 n1) in *.
  rewrite fexp_binary64.
  assert (Hk : 0 <= k) by (unfold k; lia).
  pose proof (round_nearest_even_shifted V k mrs HV Hk Hshifted) as HR.
  cbv zeta in HR.
  set (R := round_nearest_even (shr_m mrs) (loc_of_shr_record mrs)) in *.
  destruct HR as [HRm HRerr].
  destruct (Zdigits2_bounds mx Hmx) as (Hd0 & Hdlt & _).
  assert (Hpos1 : 0 < 2 ^ (k + 1)) by (apply Z.pow_pos_nonneg; lia).
  assert (Hm53 : V / 2 ^ (k + 1) < 2 ^ 53).
  { apply Z.div_lt_upper_bound; [lia |].
    rewrite <- Z.pow_add_r by lia.
    assert (2 ^ (Zdigits2 mx + 1) <= 2 ^ (k + 1 + 53))
      by (apply Z.pow_le_mono_r; unfold k, n1; lia).
    rewrite Z.pow_add_r in H by lia. unfold V. destruct h; simpl; lia. }
  assert (Hm0 : 0 <= V / 2 ^ (k + 1)) by (apply Z.div_pos; lia).
  assert (HR0 : 0 <= R) by lia.
  assert (He'min : -1074 <= e') by (unfold k, n1 in *; lia).
  assert (He'max : e' <= 2) by (unfold k, n1 in *; lia).
  assert (Hgood : ex + k <= -51 \/ R * 2 ^ (k + 1) = V).
  { destruct (Z.eq_dec k 0) as [Hk0 | Hk0].
    - destruct h; [left; specialize (Hh eq_refl); lia | right].
      rewrite Hk0 in *. change (2 ^ (0 + 1)) with 2 in *.
      change (2 ^ 0) with 1 in *. unfold V in *. simpl Z.b2z in *. lia.
    - left. unfold k, n1 in *. lia. }
  destruct (Z.eq_dec R (2 ^ 53)) as [HR53 | HR53].
  - (* the mantissa was rounded up to the next binade *)
    rewrite HR53. change (Zdigits2 (2 ^ 53)) with 54.
    replace (Z.max (54 + e' - 53) (-1074) - e') with 1 by lia.
    simpl shr. cbn [shr_m].
    change (Z.pos 4503599627370496) with (2 ^ 52).
    replace (e' + 1 <=? emax - prec) with true
      by (symmetry; apply Z.leb_le; unfold emax, prec; lia).
    exists (2 ^ 52), (e' + 1), (k + 2), k.
    split; [reflexivity |]. split; [lia |]. split; [lia |]. split; [lia |].
    split; [lia |].
    assert (Heq : 2 ^ 52 * 2 ^ (k + 2) = R * 2 ^ (k + 1)).
    { rewrite HR53. rewrite <- !Z.pow_add_r by lia. f_equal. lia. }
    rewrite Heq. split; [exact HRerr | exact Hgood].
  - assert (HRlt : R < 2 ^ 53) by lia.
    pose proof (Zdigits2_le R 53 HR0 ltac:(lia) HRlt) as HdR.
    destruct (Zdigits2_bounds R HR0) as (HdR0 & _ & _).
    assert (Hn2 : Z.max (Zdigits2 R + e' - 53) (-1074) - e' <= 0) by lia.
    replace (shr (shr_record_of_loc R loc_Exact) e'
                 (Z.max (Zdigits2 R + e' - 53) (-1074) - e'))
      with (shr_record_of_loc R loc_Exact, e')
      by (destruct (Z.max (Zdigits2 R + e' - 53) (-1074) - e');
          [reflexivity | lia | reflexivity]).
    cbn [shr_record_of_loc shr_m].
    exists R, e', (k + 1), k.
    split.
    { unfold rounded. destruct R as [| p | p]; [reflexivity | | lia].
      replace (e' <=? emax - prec) with true
        by (symmetry; apply Z.leb_le; unfold emax, prec; lia).
      reflexivity. }
    split; [lia |]. split; [lia |]. split; [lia |]. split; [lia |].
    split; [exact HRerr | exact Hgood].
Qed.

(** *** The error of one rounding *)

Section Values.

Local Open Scope Q_scope.

Lemma pow2_pos e : 0 < 2 ^ e.
Proof. apply Qpower_0_lt. reflexivity. Qed.

Lemma pow2_add a b : 2 ^ (a + b) == 2 ^ a * 2 ^ b.
Proof. apply Qpower_plus. discriminate. Qed.

Lemma pow2_Z k : (0 <= k)%Z -> inject_Z (2 ^ k) == 2 ^ k.
Proof. intros H. apply (Zpower_Qpower 2 k H). Qed.

Lemma pow2_le a b : (a <= b)%Z -> 2 ^ a <= 2 ^ b.
Proof. intros H. apply Qpower_le_compat_l; [exact H | discriminate]. Qed.

Lemma SFis_proper x v w : v == w -> SFis x v -> SFis x w.
Proof.
  unfold SFis. intros Hvw. destruct (SFvalue x); [| tauto].
  intros H. rewrite H. exact Hvw.
Qed.

Lemma SFis_rounded sx m e :
  (0 <= m)%Z -> SFis (rounded sx m e) (sign_of sx * (inject_Z m * 2 ^ e)).
Proof.
  intros H. destruct m as [| p | p]; unfold SFis; simpl; [| | lia].
  - unfold inject_Z. ring.
  - ring.
Qed.

Lemma digits_of_bound (m e : Z) :
  (0 < m)%Z -> inject_Z m * 2 ^ e < 4 -> (Zdigits2 m + e <= 2)%Z.
Proof.
  intros Hm Hlt. destruct (Zdigits2_bounds m ltac:(lia)) as (Hd0 & _ & Hlow).
  destruct (Hlow Hm) as [Hd1 Hlow'].
  assert (H1 : 2 ^ (Zdigits2 m - 1) <= inject_Z m).
  { rewrite <- (pow2_Z (Zdigits2 m - 1)) by lia. rewrite <- Zle_Qle.
    exact Hlow'. }
  assert (H2 : 2 ^ (Zdigits2 m - 1 + e) < 2 ^ 2).
  { rewrite pow2_add. pose proof (pow2_pos e).
    change (2 ^ 2) with 4. nra. }
  apply Qpower_lt_compat_l_inv in H2; [lia | reflexivity].
Qed.

Lemma binary_round_aux_error sx mx ex h :
  (0 <= mx)%Z -> (Zdigits2 mx + ex <= 2)%Z -> (h = true -> (ex <= -51)%Z) ->
  exists v',
    SFis (binary_round_aux prec emax sx mx ex (loc_of_half h))
         (sign_of sx * v')
    /\ 0 <= v'
    /\ Qabs (v' - inject_Z (2 * mx + Z.b2z h) * 2 ^ (ex - 1)) <= 2 ^ (-52).
Proof.
  intros Hmx Hd Hh.
  destruct (binary_round_aux_spec sx mx ex h Hmx Hd Hh)
    as (m & e & j & k & Hres & Hm & Hj & He & Hk & Herr & Hgood).
  exists (inject_Z m * 2 ^ e). rewrite Hres.
  split; [apply SFis_rounded, Hm |].
  pose proof (pow2_pos e) as Hpe. pose proof (pow2_pos (ex - 1)) as Hpx.
  split.
  { apply Qmult_le_0_compat; [| lra].
    change 0 with (inject_Z 0). rewrite <- Zle_Qle. exact Hm. }
  set (V := (2 * mx + Z.b2z h)%Z) in *.
  assert (Hdiff : inject_Z m * 2 ^ e - inject_Z V * 2 ^ (ex - 1)
                  == inject_Z (m * 2 ^ j - V) * 2 ^ (ex - 1)).
  { subst e. replace (ex - 1 + j)%Z with (j + (ex - 1))%Z by lia.
    rewrite pow2_add. unfold Zminus. rewrite inject_Z_plus, inject_Z_mult.
    rewrite inject_Z_opp. rewrite (pow2_Z j) by exact Hj. ring. }
  rewrite Hdiff.
  destruct Hgood as [Hsmall | Hexact].
  - apply Qabs_Qle_condition.
    assert (Hle : inject_Z (2 ^ k) * 2 ^ (ex - 1) <= 2 ^ (-52)).
    { rewrite (pow2_Z k) by exact Hk. rewrite <- pow2_add.
      apply pow2_le. lia. }
    apply Z.abs_le in Herr. destruct Herr as [Hlo Hhi].
    rewrite Zle_Qle in Hlo, Hhi. rewrite inject_Z_opp in Hlo.
    split; nra.
  - rewrite Hexact, Z.sub_diag.
    assert (Hzero : inject_Z 0 * 2 ^ (ex - 1) == 0)
      by (unfold inject_Z; ring).
    rewrite Hzero. change (Qabs 0) with 0. apply Qlt_le_weak, pow2_pos.
Qed.

Lemma sign_of_xorb a b : sign_of (xorb a b) == sign_of a * sign_of b.
Proof. destruct a, b; reflexivity. Qed.

Lemma inject_Z_cond_Zopp s m :
  inject_Z (cond_Zopp s m) == sign_of s * inject_Z m.
Proof.
  destruct s; simpl; [rewrite inject_Z_opp |]; unfold sign_of; ring.
Qed.

Lemma half_units (m e : Z) :
  inject_Z (2 * m + Z.b2z false) * 2 ^ (e - 1) == inject_Z m * 2 ^ e.
Proof.
  simpl Z.b2z. rewrite Z.add_0_r, inject_Z_mult.
  replace e with (1 + (e - 1))%Z at 2 by lia. rewrite pow2_add.
  change (2 ^ 1) with 2. change (inject_Z 2) with 2. ring.
Qed.

(** Rounding a number that is not too large moves it by at most 2^-52
    and keeps its sign. *)
Lemma round_exact_error s (m e : Z) :
  (0 <= m)%Z -> inject_Z m * 2 ^ e < 4 -> (m = 0%Z -> (e <= 2)%Z) ->
  exists v,
    SFis (binary_round_aux prec emax s m e loc_Exact) v
    /\ Qabs (v - sign_of s * (inject_Z m * 2 ^ e)) <= 2 ^ (-52).
Proof.
  intros Hm Hlt H0.
  assert (Hd : (Zdigits2 m + e <= 2)%Z).
  { destruct (Z.eq_dec m 0%Z) as [-> | Hne]; [simpl; auto |].
    apply digits_of_bound; [lia | exact Hlt]. }
  destruct (binary_round_aux_error s m e false Hm Hd ltac:(discriminate))
    as (v' & Hv' & Hpos & Herr).
  exists (sign_of s * v'). split; [exact Hv' |].
  rewrite half_units in Herr.
  apply Qabs_Qle_condition in Herr. apply Qabs_Qle_condition.
  destruct s; unfold sign_of; split; lra.
Qed.

Lemma Pos_iter_xO (m d : positive) :
  Z.pos (Pos.iter xO m d) = (Z.pos m * 2 ^ Z.pos d)%Z.
Proof.
  induction d as [| d IH] using Pos.peano_ind.
  - simpl. lia.
  - rewrite Pos.iter_succ, Pos2Z.inj_xO, IH, Pos2Z.inj_succ, Z.pow_succ_r by lia.
    lia.
Qed.

Lemma shl_align_spec (m : positive) (e e' : Z) :
  (snd (shl_align m e e') <= e)%Z
  /\ snd (shl_align m e e') = Z.min e e'
  /\ Z.pos (fst (shl_align m e e'))
     = (Z.pos m * 2 ^ (e - snd (shl_align m e e')))%Z.
Proof.
  unfold shl_align. destruct (e' - e)%Z as [| d | d] eqn:Hd; simpl.
  - rewrite Z.sub_diag. simpl. lia.
  - rewrite Z.sub_diag. simpl. lia.
  - rewrite Pos_iter_xO. replace (e - e')%Z with (Z.pos d) by lia. lia.
Qed.

Lemma shl_align_value (m : positive) (e e' : Z) :
  inject_Z (Z.pos (fst (shl_align m e e'))) * 2 ^ snd (shl_align m e e')
  == inject_Z (Z.pos m) * 2 ^ e.
Proof.
  destruct (shl_align_spec m e e') as (Hle & _ & Hm). rewrite Hm.
  rewrite inject_Z_mult, (pow2_Z (e - snd (shl_align m e e'))) by lia.
  rewrite <- Qmult_assoc, <- pow2_add. 
  replace (e - snd (shl_align m e e') + snd (shl_align m e e'))%Z with e
    by lia.
  reflexivity.
Qed.

Lemma binary_round_error s (m : positive) (e : Z) :
  inject_Z (Z.pos m) * 2 ^ e < 4 ->
  exists v,
    SFis (binary_round prec emax s m e) v
    /\ Qabs (v - sign_of s * (inject_Z (Z.pos m) * 2 ^ e)) <= 2 ^ (-52).
Proof.
  intros Hlt. unfold binary_round.
  pose proof (shl_align_value m e
                (fexp prec emax (Z.pos (digits2_pos m) + e))) as Hval.
  destruct (shl_align m e (fexp prec emax (Z.pos (digits2_pos m) + e)))
    as [mz ez]. simpl fst in Hval. simpl snd in Hval.
  destruct (round_exact_error s (Z.pos mz) ez) as (v & Hv & Herr);
    [lia | rewrite Hval; exact Hlt | discriminate |].
  exists v. split; [exact Hv |]. rewrite <- Hval. exact Herr.
Qed.

Lemma binary_normalize_error (M e : Z) :
  Qabs (inject_Z M * 2 ^ e) < 4 ->
  exists v,
    SFis (binary_normalize prec emax M e false) v
    /\ Qabs (v - inject_Z M * 2 ^ e) <= 2 ^ (-52).
Proof.
  intros Hlt. pose proof (pow2_pos e) as Hpe.
  destruct M as [| m | m]; simpl binary_normalize.
  - exists 0. split; [reflexivity |].
    assert (H0 : 0 - inject_Z 0 * 2 ^ e == 0) by (unfold inject_Z; ring).
    rewrite H0. change (Qabs 0) with 0. apply Qlt_le_weak, pow2_pos.
  - destruct (binary_round_error false m e) as (v & Hv & Herr).
    { rewrite Qabs_pos in Hlt; [exact Hlt |].
      apply Qmult_le_0_compat; [| lra]. unfold inject_Z, Qle. simpl. lia. }
    exists v. split; [exact Hv |].
    assert (H1 : sign_of false * (inject_Z (Z.pos m) * 2 ^ e)
                 == inject_Z (Z.pos m) * 2 ^ e) by (unfold sign_of; ring).
    rewrite <- H1. exact Herr.
  - assert (Hneg : inject_Z (Z.neg m) == - inject_Z (Z.pos m))
      by (rewrite <- inject_Z_opp; reflexivity).
    destruct (binary_round_error true m e) as (v & Hv & Herr).
    { rewrite Hneg in Hlt.
      assert (H2 : - inject_Z (Z.pos m) * 2 ^ e
                   == - (inject_Z (Z.pos m) * 2 ^ e)) by ring.
      rewrite H2, Qabs_opp, Qabs_pos in Hlt; [exact Hlt |].
      apply Qmult_le_0_compat; [| lra]. unfold inject_Z, Qle. simpl. lia. }
    exists v. split; [exact Hv |].
    assert (H1 : sign_of true * (inject_Z (Z.pos m) * 2 ^ e)
                 == inject_Z (Z.neg m) * 2 ^ e)
      by (rewrite Hneg; unfold sign_of; ring).
    rewrite <- H1. exact Herr.
Qed.

Lemma close_same a b : a == b -> Qabs (a - b) <= 2 ^ (-52).
Proof.
  intros H. assert (H0 : a - b == 0) by (rewrite H; ring).
  rewrite H0. change (Qabs 0) with 0. apply Qlt_le_weak, pow2_pos.
Qed.

Lemma shl_align_min (m : positive) (e e' : Z) :
  (e' <= e)%Z ->
  inject_Z (Z.pos (fst (shl_align m e e'))) * 2 ^ e'
  == inject_Z (Z.pos m) * 2 ^ e.
Proof.
  intros H. pose proof (shl_align_value m e e') as Hv.
  destruct (shl_align_spec m e e') as (_ & Hsnd & _).
  rewrite Hsnd, Z.min_r in Hv by exact H. exact Hv.
Qed.

Lemma SFadd_close x y vx vy :
  SFis x vx -> SFis y vy -> Qabs (vx + vy) < 4 ->
  exists v, SFis (SFadd prec emax x y) v
            /\ Qabs (v - (vx + vy)) <= 2 ^ (-52).
Proof.
  destruct x as [sx | sx | | sx mx ex], y as [sy | sy | | sy my ey];
    unfold SFis; cbn [SFvalue]; cbv beta iota; try tauto; intros Hx Hy Hlt.
  - exists 0. split; [destruct sx, sy; reflexivity |].
    apply close_same. rewrite <- Hx, <- Hy. ring.
  - exists vy. split; [exact Hy |]. apply close_same. rewrite <- Hx. ring.
  - exists vx. split; [exact Hx |]. apply close_same. rewrite <- Hy. ring.
  - unfold SFadd. cbv zeta.
    set (ez := Z.min ex ey).
    set (M := (cond_Zopp sx (Z.pos (fst (shl_align mx ex ez)))
               + cond_Zopp sy (Z.pos (fst (shl_align my ey ez))))%Z).
    assert (HM : inject_Z M * 2 ^ ez == vx + vy).
    { unfold M. rewrite inject_Z_plus, !inject_Z_cond_Zopp.
      rewrite <- Hx, <- Hy.
      pose proof (shl_align_min mx ex ez ltac:(unfold ez; lia)) as Hax.
      pose proof (shl_align_min my ey ez ltac:(unfold ez; lia)) as Hay.
      rewrite <- !Qmult_assoc, <- Hax, <- Hay. ring. }
    destruct (binary_normalize_error M ez) as (v & Hv & Herr);
      [rewrite HM; exact Hlt |].
    exists v. split; [exact Hv |]. rewrite <- HM. exact Herr.
Qed.

Lemma SFsub_close x y vx vy :
  SFis x vx -> SFis y vy -> Qabs (vx - vy) < 4 ->
  exists v, SFis (SFsub prec emax x y) v
            /\ Qabs (v - (vx - vy)) <= 2 ^ (-52).
Proof.
  destruct x as [sx | sx | | sx mx ex], y as [sy | sy | | sy my ey];
    unfold SFis; cbn [SFvalue]; cbv beta iota; try tauto; intros Hx Hy Hlt.
  - exists 0. split; [destruct sx, sy; reflexivity |].
    apply close_same. rewrite <- Hx, <- Hy. ring.
  - exists (- vy). split.
    + simpl. rewrite <- Hy. destruct sy; unfold sign_of; simpl; ring.
    + apply close_same. rewrite <- Hx. ring.
  - exists vx. split; [exact Hx |]. apply close_same. rewrite <- Hy. ring.
  - unfold SFsub. cbv zeta.
    set (ez := Z.min ex ey).
    set (M := (cond_Zopp sx (Z.pos (fst (shl_align mx ex ez)))
               - cond_Zopp sy (Z.pos (fst (shl_align my ey ez))))%Z).
    assert (HM : inject_Z M * 2 ^ ez == vx - vy).
    { unfold M, Z.sub. rewrite inject_Z_plus, inject_Z_opp.
      rewrite !inject_Z_cond_Zopp. rewrite <- Hx, <- Hy.
      pose proof (shl_align_min mx ex ez ltac:(unfold ez; lia)) as Hax.
      pose proof (shl_align_min my ey ez ltac:(unfold ez; lia)) as Hay.
      rewrite <- !Qmult_assoc, <- Hax, <- Hay. ring. }
    destruct (binary_normalize_error M ez) as (v & Hv & Herr);
      [rewrite HM; exact Hlt |].
    exists v. split; [exact Hv |]. rewrite <- HM. exact Herr.
Qed.

Lemma Qabs_sign s a : Qabs (sign_of s * a) == Qabs a.
Proof.
  destruct s; unfold sign_of.
  - assert (H : -1 * a == - a) by ring. rewrite H. apply Qabs_opp.
  - assert (H : 1 * a == a) by ring. rewrite H. reflexivity.
Qed.

Lemma SFmul_close x y vx vy :
  SFis x vx -> SFis y vy -> Qabs (vx * vy) < 4 ->
  exists v, SFis (SFmul prec emax x y) v
            /\ Qabs (v - vx * vy) <= 2 ^ (-52).
Proof.
  destruct x as [sx | sx | | sx mx ex], y as [sy | sy | | sy my ey];
    unfold SFis; cbn [SFvalue]; cbv beta iota; try tauto; intros Hx Hy Hlt.
  - exists 0. split; [reflexivity |].
    apply close_same. rewrite <- Hx. ring.
  - exists 0. split; [reflexivity |].
    apply close_same. rewrite <- Hx. ring.
  - exists 0. split; [reflexivity |].
    apply close_same. rewrite <- Hy. ring.
  - unfold SFmul.
    assert (Hprod : sign_of (xorb sx sy)
                    * (inject_Z (Z.pos (mx * my)) * 2 ^ (ex + ey))
                    == vx * vy).
    { rewrite <- Hx, <- Hy, sign_of_xorb, Pos2Z.inj_mul, inject_Z_mult.
      rewrite pow2_add. ring. }
    destruct (round_exact_error (xorb sx sy) (Z.pos (mx * my)) (ex + ey))
      as (v & Hv & Herr); [lia | | discriminate |].
    { rewrite <- Hprod, Qabs_sign in Hlt. rewrite Qabs_pos in Hlt;
        [exact Hlt |].
      pose proof (pow2_pos (ex + ey)).
      apply Qmult_le_0_compat; [| lra]. unfold inject_Z, Qle. simpl. lia. }
    exists v. split; [exact Hv |]. rewrite <- Hprod. exact Herr.
Qed.

End Values.

(** *** Division by 2. *)

Lemma SFdiv_core_two (mx : positive) (ex : Z) :
  Z.pos (digits2_pos mx) <= 53 -> -1074 <= ex ->
  exists q e' h,
    SFdiv_core_binary prec emax (Z.pos mx) ex 4503599627370496 (-51)
    = (q, e', loc_of_half h)
    /\ 0 <= q /\ e' <= ex
    /\ e' <= Z.max (Z.pos (digits2_pos mx) + ex - 55) (-1074)
    /\ (2 * q + Z.b2z h) * 2 ^ 52 = 2 * Z.pos mx * 2 ^ (ex + 51 - e').
Proof.
  intros Hd He. unfold SFdiv_core_binary.
  change (Zdigits2 (Z.pos mx)) with (Z.pos (digits2_pos mx)).
  change (Zdigits2 4503599627370496) with 53.
  rewrite fexp_binary64.
  set (e' := Z.min (Z.max (Z.pos (digits2_pos mx) + ex - (53 + -51) - 53)
                          (-1074)) (ex - -51)).
  assert (He' : e' <= ex) by (unfold e'; lia).
  assert (He'' : e' <= Z.max (Z.pos (digits2_pos mx) + ex - 55) (-1074))
    by (unfold e'; lia).
  set (s := ex - -51 - e').
  assert (Hs : 51 <= s) by (unfold s; lia).
  set (m' := match s with
             | 0 => Z.pos mx
             | Z.pos _ => Z.shiftl (Z.pos mx) s
             | Z.neg _ => 0
             end).
  assert (Hm' : m' = Z.pos mx * 2 ^ (s - 51) * 2 ^ 51).
  { unfold m'. destruct s as [| p | p] eqn:Hp; try lia.
    rewrite Z.shiftl_mul_pow2 by lia. rewrite <- Z.mul_assoc.
    rewrite <- Z.pow_add_r by lia. f_equal. f_equal. lia. }
  clearbody m'.
  pose proof (Z.div_eucl_eq m' 4503599627370496 ltac:(lia)) as Heq.
  pose proof (Z.mod_pos_bound m' 4503599627370496 ltac:(lia)) as Hbound.
  unfold Z.modulo in Hbound.
  destruct (Z.div_eucl m' 4503599627370496) as [q r].
  set (t := Z.pos mx * 2 ^ (s - 51)) in *.
  assert (Ht : 0 <= t) by (unfold t; apply Z.mul_nonneg_nonneg; [lia |];
                            apply Z.pow_nonneg; lia).
  change (2 ^ 51) with 2251799813685248 in Hm'.
  assert (Hr : r = 0 \/ r = 2251799813685248) by lia.
  assert (Hq : 0 <= q) by lia.
  exists q, e', (negb (r =? 0)).
  split; [| split; [exact Hq | split; [exact He' | split; [exact He'' |]]]].
  - f_equal. destruct Hr as [-> | ->]; reflexivity.
  - replace (ex + 51 - e') with (s - 51 + 51) by (unfold s; lia).
    replace (2 * Z.pos mx * 2 ^ (s - 51 + 51))
      with (2 * t * 2251799813685248)
      by (unfold t; rewrite Z.pow_add_r by lia; ring).
    change (2 ^ 52) with 4503599627370496.
    destruct Hr as [-> | ->]; simpl Z.b2z; lia.
Qed.

Lemma valid_finite s mx ex :
  SpecFloat.valid_binary prec emax (S754_finite s mx ex) = true ->
  Z.pos (digits2_pos mx) <= 53 /\ -1074 <= ex.
Proof.
  unfold SpecFloat.valid_binary, bounded, canonical_mantissa.
  rewrite fexp_binary64. intros H. apply andb_true_iff in H as [H _].
  apply Z.eqb_eq in H. lia.
Qed.

Lemma valid_canonical s mx ex :
  SpecFloat.valid_binary prec emax (S754_finite s mx ex) = true ->
  Z.max (Z.pos (digits2_pos mx) + ex - 53) (-1074) = ex.
Proof.
  unfold SpecFloat.valid_binary, bounded, canonical_mantissa.
  rewrite fexp_binary64. intros H. apply andb_true_iff in H as [H _].
  apply Z.eqb_eq in H. exact H.
Qed.

Section Halving.

Local Open Scope Q_scope.

Lemma pow2_pred e : 2 * 2 ^ (e - 1) == 2 ^ e.
Proof.
  replace e with (1 + (e - 1))%Z at 2 by lia. rewrite pow2_add. reflexivity.
Qed.

Lemma SFhalf_close x vx :
  SpecFloat.valid_binary prec emax x = true ->
  SFis x vx -> Qabs vx < 4 ->
  exists v, SFis (SFdiv prec emax x SFtwo) v
            /\ Qabs (v - vx * (1 # 2)) <= 2 ^ (-52).
Proof.
  destruct x as [sx | sx | | sx mx ex];
    unfold SFis; cbn [SFvalue]; cbv beta iota; try tauto;
    intros Hvalid Hx Hlt.
  - exists 0. split; [reflexivity |]. apply close_same. rewrite <- Hx.
    ring.
  - apply valid_finite in Hvalid as [Hd He].
    pose proof (pow2_pos ex) as Hpex. pose proof (pow2_pos (ex - 1)) as Hpex1.
    pose proof (pow2_pred ex) as Hpred.
    assert (Hmpos : 0 < inject_Z (Z.pos mx))
      by (unfold inject_Z, Qlt; simpl; lia).
    assert (Habs : inject_Z (Z.pos mx) * 2 ^ ex < 4).
    { rewrite <- Hx in Hlt.
      rewrite <- Qmult_assoc, Qabs_sign, Qabs_pos in Hlt; [exact Hlt |].
      apply Qmult_le_0_compat; lra. }
    pose proof (digits_of_bound (Z.pos mx) ex ltac:(lia) Habs) as Hdig.
    change (Zdigits2 (Z.pos mx)) with (Z.pos (digits2_pos mx)) in Hdig.
    destruct (SFdiv_core_two mx ex Hd He)
      as (q & e' & h & Hcore & Hq & He' & He'' & Hrel).
    unfold SFdiv, SFtwo. rewrite Hcore.
    pose proof (pow2_pos (e' - 1)) as Hpe1.
    pose proof (pow2_pred e') as Hpred'.
    assert (Hval : inject_Z (2 * q + Z.b2z h) * 2 ^ (e' - 1)
                   == inject_Z (Z.pos mx) * 2 ^ (ex - 1)).
    { assert (Hrel' : inject_Z (2 * q + Z.b2z h) * inject_Z (2 ^ 52)
                      == inject_Z 2 * inject_Z (Z.pos mx)
                         * inject_Z (2 ^ (ex + 51 - e')))
        by (rewrite <- !inject_Z_mult, Hrel; reflexivity).
      rewrite (pow2_Z 52), (pow2_Z (ex + 51 - e')) in Hrel' by lia.
      replace (e' - 1)%Z with (52 + (e' - 53))%Z by lia.
      rewrite pow2_add, Qmult_assoc, Hrel'.
      rewrite <- !Qmult_assoc, <- pow2_add.
      replace (ex + 51 - e' + (e' - 53))%Z with (ex - 1 - 1)%Z by lia.
      rewrite <- (pow2_pred (ex - 1)). change (inject_Z 2) with 2. ring. }
    assert (Hqpos : 0 <= inject_Z q)
      by (change 0 with (inject_Z 0); rewrite <- Zle_Qle; exact Hq).
    assert (Hdq : (Zdigits2 q + e' <= 2)%Z).
    { destruct (Z.eq_dec q 0%Z) as [-> | Hne]; [simpl; lia |].
      apply digits_of_bound; [lia |].
      rewrite inject_Z_plus, inject_Z_mult in Hval.
      assert (0 <= inject_Z (Z.b2z h) * 2 ^ (e' - 1)).
      { apply Qmult_le_0_compat; [| lra].
        destruct h; unfold inject_Z, Qle; simpl; lia. }
      change (inject_Z 2) with 2 in Hval.
      rewrite <- Hpred'. rewrite <- Hpred in Habs. lra. }
    assert (Hsmall : h = true -> (e' <= -51)%Z) by (intros _; lia).
    destruct (binary_round_aux_error (xorb sx false) q e' h Hq Hdq Hsmall)
      as (v' & Hv' & Hpos & Herr).
    exists (sign_of (xorb sx false) * v'). split; [exact Hv' |].
    rewrite Hval in Herr. rewrite <- Hx.
    assert (Hhalf : sign_of sx * inject_Z (Z.pos mx) * 2 ^ ex * (1 # 2)
                    == sign_of sx * (inject_Z (Z.pos mx) * 2 ^ (ex - 1)))
      by (rewrite <- Hpred; ring).
    rewrite Hhalf.
    apply Qabs_Qle_condition in Herr. apply Qabs_Qle_condition.
    destruct sx; unfold sign_of; simpl xorb; cbv iota; split; lra.
Qed.

End Halving.

(** *** The primitive operations and comparisons *)

Section FloatValues.

Local Open Scope Q_scope.

Lemma add_close x y vx vy :
  value_is x vx -> value_is y vy -> Qabs (vx + vy) < 4 ->
  exists v, value_is (x + y) v /\ Qabs (v - (vx + vy)) <= 2 ^ (-52).
Proof. unfold value_is. rewrite add_spec. apply SFadd_close. Qed.

Lemma sub_close x y vx vy :
  value_is x vx -> value_is y vy -> Qabs (vx - vy) < 4 ->
  exists v, value_is (x - y) v /\ Qabs (v - (vx - vy)) <= 2 ^ (-52).
Proof. unfold value_is. rewrite sub_spec. apply SFsub_close. Qed.

Lemma mul_close x y vx vy :
  value_is x vx -> value_is y vy -> Qabs (vx * vy) < 4 ->
  exists v, value_is (x * y) v /\ Qabs (v - vx * vy) <= 2 ^ (-52).
Proof. unfold value_is. rewrite mul_spec. apply SFmul_close. Qed.

Lemma half_close x vx :
  value_is x vx -> Qabs vx < 4 ->
  exists v, value_is (x / 2) v /\ Qabs (v - vx * (1 # 2)) <= 2 ^ (-52).
Proof.
  unfold value_is. rewrite div_spec.
  change (Prim2SF 2) with SFtwo. apply SFhalf_close, Prim2SF_valid.
Qed.

Lemma SFis_unique x v w : SFis x v -> SFis x w -> v == w.
Proof.
  unfold SFis. destruct (SFvalue x); [| tauto].
  intros Hv Hw. rewrite <- Hv, <- Hw. reflexivity.
Qed.

Lemma value_is_zero : value_is 0 0.
Proof. unfold value_is, SFis. vm_compute. reflexivity. Qed.

Lemma value_is_one : value_is 1 1.
Proof. unfold value_is, SFis. vm_compute. reflexivity. Qed.

(** Two floats that compare equal have the same value. *)
Lemma SFeqb_value a b v : SFeqb a b = true -> SFis b v -> SFis a v.
Proof.
  unfold SFeqb, SFis.
  destruct a as [sa | sa | | sa ma ea], b as [sb | sb | | sb mb eb];
    cbn [SFvalue SFcompare]; cbv beta iota; try tauto; try discriminate;
    try (destruct sa; discriminate); try (destruct sb; discriminate).
  change (PosDef.Pos.compare_cont Eq ma mb) with (Pos.compare ma mb).
  destruct sa, sb; try discriminate;
    destruct (Z.compare_spec ea eb) as [-> | |]; try discriminate;
    destruct (Pos.compare_spec ma mb) as [-> | |]; try discriminate;
    tauto.
Qed.

Lemma SFleb_nonneg a b :
  SFleb a b = true -> SFnonneg a = true -> SFnonneg b = true.
Proof.
  unfold SFleb.
  destruct a as [sa | sa | | sa ma ea], b as [sb | sb | | sb mb eb];
    cbn [SFnonneg SFcompare]; try discriminate; try tauto;
    try (destruct sa; try discriminate; destruct sb; discriminate || tauto).
Qed.

Lemma SFleb_finite a b vb :
  SFleb a b = true -> SFnonneg a = true -> SFis b vb ->
  exists va, SFis a va.
Proof.
  unfold SFleb, SFis.
  destruct a as [sa | sa | | sa ma ea], b as [sb | sb | | sb mb eb];
    cbn [SFnonneg SFcompare SFvalue]; cbv beta iota;
    try discriminate; try tauto; intros Hle Hnn Hb;
    try (eexists; reflexivity);
    destruct sa; discriminate.
Qed.

Lemma finite_nonneg (m : positive) e : 0 < inject_Z (Z.pos m) * 2 ^ e.
Proof.
  apply Qmult_lt_0_compat; [unfold inject_Z, Qlt; simpl; lia | apply pow2_pos].
Qed.

(** On valid nonnegative numbers the comparison of the representations
    is the comparison of the values. *)
Lemma SFleb_value a b va vb :
  SpecFloat.valid_binary prec emax a = true ->
  SpecFloat.valid_binary prec emax b = true ->
  SFleb a b = true -> SFnonneg a = true -> SFis a va -> SFis b vb ->
  0 <= va <= vb.
Proof.
  intros Hva Hvb. unfold SFleb, SFis.
  destruct a as [sa | sa | | sa ma ea], b as [sb | sb | | sb mb eb];
    cbn [SFnonneg SFcompare SFvalue]; cbv beta iota; try tauto;
    intros Hle Hnn Ha Hb.
  - lra.
  - destruct sb; [discriminate |]. pose proof (finite_nonneg mb eb).
    unfold sign_of in Hb. lra.
  - destruct sa; discriminate.
  - destruct sa; [discriminate |]. destruct sb; [discriminate |].
    pose proof (finite_nonneg ma ea) as Hpa.
    unfold sign_of in Ha, Hb. split; [lra |].
    rewrite <- Ha, <- Hb, !Qmult_1_l.
    pose proof (valid_canonical _ _ _ Hvb) as Hcb.
    apply valid_finite in Hva as [Hda Hea].
    apply valid_finite in Hvb as [Hdb Heb].
    change (PosDef.Pos.compare_cont Eq ma mb) with (Pos.compare ma mb) in Hle.
    destruct (Z.compare_spec ea eb) as [-> | Hlt | Hgt];
      [| | discriminate].
    + assert (Hm : (Z.pos ma <= Z.pos mb)%Z)
        by (destruct (Pos.compare_spec ma mb); try discriminate; lia).
      apply Qmult_le_compat_r; [| apply Qlt_le_weak, pow2_pos].
      rewrite <- Zle_Qle. exact Hm.
    + (* the smaller exponent: [b] is normal, so its mantissa has all
         its 53 digits *)
      pose proof (digits2_pos_bounds ma) as [_ Hma].
      pose proof (digits2_pos_bounds mb) as [Hmb _].
      assert (Hdb53 : Z.pos (digits2_pos mb) = 53%Z) by lia.
      rewrite Hdb53 in Hmb. change (53 - 1)%Z with 52%Z in Hmb.
      assert (Hma53 : (Z.pos ma <= 2 ^ 53)%Z).
      { assert ((2 ^ Z.pos (digits2_pos ma) <= 2 ^ 53)%Z)
          by (apply Z.pow_le_mono_r; lia). lia. }
      rewrite Zle_Qle, (pow2_Z 53) in Hma53 by lia.
      rewrite Zle_Qle, (pow2_Z 52) in Hmb by lia.
      pose proof (pow2_pos ea) as Hpea. pose proof (pow2_pos eb) as Hpeb.
      assert (Hexp : 2 ^ 53 * 2 ^ ea <= 2 ^ 52 * 2 ^ eb)
        by (rewrite <- !pow2_add; apply pow2_le; lia).
      assert (H1 : inject_Z (Z.pos ma) * 2 ^ ea <= 2 ^ 53 * 2 ^ ea)
        by (apply Qmult_le_compat_r; [exact Hma53 | lra]).
      assert (H2 : 2 ^ 52 * 2 ^ eb <= inject_Z (Z.pos mb) * 2 ^ eb)
        by (apply Qmult_le_compat_r; [exact Hmb | lra]).
      lra.
Qed.

End FloatValues.

(** *** The values of a series on the diagonal *)

Section DiagonalValues.

Local Open Scope Q_scope.

Lemma eqb_value x y v :
  PrimFloat.eqb x y = true -> value_is y v -> value_is x v.
Proof. rewrite FloatAxioms.eqb_spec. apply SFeqb_value. Qed.

Lemma eqb_zero_nonneg l : PrimFloat.eqb l 0 = true -> nonneg l.
Proof.
  rewrite FloatAxioms.eqb_spec. unfold nonneg. change (Prim2SF 0) with (S754_zero false).
  unfold SFeqb. destruct (Prim2SF l) as [s | s | | s m e]; simpl;
    try reflexivity; try discriminate; destruct s; discriminate.
Qed.

Lemma leb_nonneg x1 x0 :
  PrimFloat.leb x1 x0 = true -> nonneg x1 -> nonneg x0.
Proof. rewrite FloatAxioms.leb_spec. apply SFleb_nonneg. Qed.

Lemma descending_nonneg (xs : list float) l :
  descending PrimFloat.leb xs = true ->
  last xs = Some l -> PrimFloat.eqb l 0 = true ->
  Forall nonneg xs.
Proof.
  intros Hdesc Hlast Hzero. induction xs as [| x0 xs IH]; [constructor |].
  destruct xs as [| x1 xs].
  - injection Hlast as ->. constructor; [| constructor].
    apply eqb_zero_nonneg, Hzero.
  - cbn [descending] in Hdesc. apply andb_true_iff in Hdesc as [Hle Hdesc].
    rewrite last_cons_cons in Hlast. specialize (IH Hdesc Hlast).
    constructor; [| exact IH].
    apply (leb_nonneg x1 x0 Hle). apply Forall_cons in IH as [H _]. exact H.
Qed.

Lemma diagonal_chain (rest : list point) :
  forall x a,
    value_is x a ->
    descending PrimFloat.leb (x :: (fst <$> rest)) = true ->
    Forall nonneg (fst <$> rest) ->
    forallb (fun p : point => PrimFloat.eqb p.2 p.1) rest = true ->
    (exists l, last (x :: (fst <$> rest)) = Some l
               /\ PrimFloat.eqb l 0 = true) ->
    diagonal_from a rest.
Proof.
  induction rest as [| [x1 y1] rest IH];
    intros x a Hx Hdesc Hnn Hdiag (l & Hl & Hl0).
  - injection Hl as <-. simpl.
    apply (SFis_unique (Prim2SF x)); [exact Hx |].
    apply (eqb_value x 0 0 Hl0 value_is_zero).
  - change (fst <$> (x1, y1) :: rest) with (x1 :: (fst <$> rest)) in *.
    cbn [descending] in Hdesc. apply andb_true_iff in Hdesc as [Hle Hdesc].
    apply Forall_cons in Hnn as [Hnn1 Hnn].
    cbn [forallb snd fst] in Hdiag.
    apply andb_true_iff in Hdiag as [Hy1 Hdiag].
    rewrite last_cons_cons in Hl.
    rewrite FloatAxioms.leb_spec in Hle.
    destruct (SFleb_finite _ _ a Hle Hnn1 Hx) as [b Hb].
    pose proof (SFleb_value _ _ b a (Prim2SF_valid x1) (Prim2SF_valid x)
                  Hle Hnn1 Hb Hx) as Hba.
    simpl. exists b. split; [exact Hb |].
    split; [apply (eqb_value y1 x1 b Hy1 Hb) |]. split; [exact Hba |].
    apply (IH x1 b Hb Hdesc Hnn Hdiag). exists l. split; assumption.
Qed.

Lemma no_discrimination_values (points : list point) :
  no_discrimination 0%float 1%float PrimFloat.eqb PrimFloat.leb points
  = true ->
  exists x y rest,
    points = (x, y) :: rest
    /\ value_is x 1 /\ value_is y 1 /\ diagonal_from 1 rest.
Proof.
  unfold no_discrimination. rewrite !andb_true_iff.
  intros [[[Hdiag Hfirst] Hlast] Hdesc].
  destruct points as [| [x y] rest]; [discriminate |].
  cbn [head fst] in Hfirst.
  unfold point in *.
  destruct (last ((x, y) :: rest)) as [l' |] eqn:Hl; [| discriminate Hlast].
  cbn [forallb fst snd] in Hdiag. apply andb_true_iff in Hdiag as [Hy Hdiag].
  assert (Hx1 : value_is x 1) by apply (eqb_value x 1 1 Hfirst value_is_one).
  assert (Hl' : last (fst <$> (x, y) :: rest) = Some l'.1)
    by (rewrite fmap_last, Hl; reflexivity).
  pose proof (descending_nonneg _ _ Hdesc Hl' Hlast) as Hnn.
  change (fst <$> (x, y) :: rest) with (x :: (fst <$> rest)) in *.
  apply Forall_cons in Hnn as [_ Hnn].
  exists x, y, rest. split; [reflexivity |]. split; [exact Hx1 |].
  split; [apply (eqb_value y x 1 Hy Hx1) |].
  apply (diagonal_chain rest x 1 Hx1 Hdesc Hnn Hdiag).
  exists l'.1. split; assumption.
Qed.

End DiagonalValues.

(** *** The summation along the diagonal *)

Section Accumulation.

Local Open Scope Q_scope.

Lemma unit_roundoff_small : 0 < 2 ^ (-52) /\ 2 ^ (-52) <= 1 # 4.
Proof. split; [apply pow2_pos | vm_compute; discriminate]. Qed.

Lemma close_zero : Qabs (0 - (1 - 1 * 1) * (1 # 2)) <= 0.
Proof. vm_compute. discriminate. Qed.

Lemma Qabs_lt_4 v : -4 < v -> v < 4 -> Qabs v < 4.
Proof. intros H1 H2. apply Qabs_case; intros; lra. Qed.

(** One step of the summation on the line y = x: the running total
    stays close to the exact area over the part of the line already
    covered, losing at most five rounding errors of 2^-52. *)
Lemma trapezoid_step total x0 y0 x1 y1 t a b E :
  value_is total t ->
  value_is x0 a -> value_is y0 a -> value_is x1 b -> value_is y1 b ->
  0 <= b <= a -> a <= 1 ->
  Qabs (t - (1 - a * a) * (1 # 2)) <= E -> 0 <= E <= 1 # 2 ->
  exists t',
    value_is (total + (y0 + y1) / 2 * (x0 - x1))%float t'
    /\ Qabs (t' - (1 - b * b) * (1 # 2)) <= E + 5 * 2 ^ (-52).
Proof.
  intros Ht Hx0 Hy0 Hx1 Hy1 Hba Ha1 Herr HE.
  destruct unit_roundoff_small as [Hu0 Hu1].
  remember (2 ^ (-52)) as u eqn:Hu.
  apply Qabs_Qle_condition in Herr.
  destruct (add_close y0 y1 a b Hy0 Hy1) as (s & Hs & Hserr);
    [apply Qabs_lt_4; lra |].
  rewrite <- Hu in Hserr. apply Qabs_Qle_condition in Hserr.
  destruct (half_close _ s Hs) as (h & Hh & Hherr);
    [apply Qabs_lt_4; lra |].
  rewrite <- Hu in Hherr. apply Qabs_Qle_condition in Hherr.
  destruct (sub_close x0 x1 a b Hx0 Hx1) as (d & Hd & Hderr);
    [apply Qabs_lt_4; lra |].
  rewrite <- Hu in Hderr. apply Qabs_Qle_condition in Hderr.
  set (A := (a + b) * (1 # 2)) in *. set (D := a - b) in *.
  assert (HA : 0 <= A <= 1) by (unfold A; lra).
  assert (HD : 0 <= D <= 1) by (unfold D; lra).
  assert (Hdh : - (3 # 2) * u <= h - A <= (3 # 2) * u) by (unfold A; lra).
  assert (Hprod : - (3 * u) <= h * d - A * D <= 3 * u).
  { assert (Hid : h * d - A * D
                  == A * (d - D) + (h - A) * D + (h - A) * (d - D)) by ring.
    rewrite Hid. split; nra. }
  destruct (mul_close _ _ h d Hh Hd) as (p & Hp & Hperr);
    [apply Qabs_lt_4; nra |].
  rewrite <- Hu in Hperr. apply Qabs_Qle_condition in Hperr.
  destruct (add_close _ _ t p Ht Hp) as (t' & Ht' & Hterr);
    [apply Qabs_lt_4; nra |].
  rewrite <- Hu in Hterr. apply Qabs_Qle_condition in Hterr.
  exists t'. split; [exact Ht' |].
  apply Qabs_Qle_condition.
  assert (Hexact : (1 - b * b) * (1 # 2)
                   == (1 - a * a) * (1 # 2) + A * D)
    by (unfold A, D; ring).
  rewrite Hexact. split; lra.
Qed.

Lemma accumulate_diagonal_close (rest : list point) :
  forall total x y t a E,
    value_is total t -> value_is x a -> value_is y a ->
    0 <= a <= 1 -> diagonal_from a rest ->
    Qabs (t - (1 - a * a) * (1 # 2)) <= E -> 0 <= E ->
    E + inject_Z (Z.of_nat (length rest)) * (5 * 2 ^ (-52)) <= 1 # 2 ->
    exists v,
      value_is (accumulate_trapezoids total ((x, y) :: rest)) v
      /\ Qabs (v - (1 # 2))
         <= E + inject_Z (Z.of_nat (length rest)) * (5 * 2 ^ (-52)).
Proof.
  destruct unit_roundoff_small as [Hu0 _].
  induction rest as [| [x1 y1] rest IH];
    intros total x y t a E Ht Hx Hy Ha Hchain Herr HE Hroom.
  - simpl in Hchain. exists t. split; [exact Ht |].
    assert (Hhalf : (1 - a * a) * (1 # 2) == 1 # 2)
      by (rewrite Hchain; reflexivity).
    rewrite Hhalf in Herr.
    assert (H0 : inject_Z (Z.of_nat (length (@nil point)))
                 * (5 * 2 ^ (-52)) == 0) by reflexivity.
    rewrite H0. lra.
  - destruct Hchain as (b & Hx1 & Hy1 & Hb & Hchain).
    cbn [length] in Hroom |- *. rewrite Nat2Z.inj_succ in Hroom |- *.
    unfold Z.succ in Hroom |- *. rewrite inject_Z_plus in Hroom |- *.
    change (inject_Z 1) with 1 in Hroom |- *.
    assert (Hn : 0 <= inject_Z (Z.of_nat (length rest))).
    { change 0 with (inject_Z 0). rewrite <- Zle_Qle. lia. }
    assert (Hnu : 0 <= inject_Z (Z.of_nat (length rest)) * (5 * 2 ^ (-52)))
      by (apply Qmult_le_0_compat; lra).
    destruct (trapezoid_step total x y x1 y1 t a b E Ht Hx Hy Hx1 Hy1 Hb
                ltac:(lra) Herr ltac:(lra)) as (t' & Ht' & Herr').
    destruct (IH _ x1 y1 t' b (E + 5 * 2 ^ (-52)) Ht' Hx1 Hy1
                ltac:(lra) Hchain Herr' ltac:(lra) ltac:(lra))
      as (v & Hv & Hverr).
    exists v. split; [exact Hv |]. lra.
Qed.

Lemma summation_on_diagonal (points : list point) :
  no_discrimination 0%float 1%float PrimFloat.eqb PrimFloat.leb points
  = true ->
  (Z.of_nat (length points) <= 2 ^ 48)%Z ->
  exists v,
    value_is (accumulate_trapezoids 0 points) v
    /\ Qabs (v - (1 # 2))
       <= inject_Z (Z.of_nat (length points) - 1) * (5 * 2 ^ (-52)).
Proof.
  intros Hdiag Hlen.
  destruct (no_discrimination_values points Hdiag)
    as (x & y & rest & -> & Hx & Hy & Hchain).
  unfold point in *. cbn [length] in *. rewrite Nat2Z.inj_succ in *.
  change (2 ^ 48)%Z with 281474976710656%Z in *.
  replace (Z.succ (Z.of_nat (length rest)) - 1)%Z
    with (Z.of_nat (length rest)) by lia.
  assert (Hn : inject_Z (Z.of_nat (length rest))
               <= inject_Z 281474976710656)
    by (rewrite <- Zle_Qle; lia).
  assert (Hroom : inject_Z 281474976710656 * (5 * 2 ^ (-52)) <= 1 # 2)
    by (vm_compute; discriminate).
  destruct unit_roundoff_small as [Hu0 _].
  destruct (accumulate_diagonal_close rest 0%float x y 0 1 0
              value_is_zero Hx Hy ltac:(lra) Hchain)
    as (v & Hv & Herr).
  - apply close_zero.
  - lra.
  - unfold point.
    assert (inject_Z (Z.of_nat (length rest)) * (5 * 2 ^ (-52))
            <= inject_Z 281474976710656 * (5 * 2 ^ (-52)))
      by (apply Qmult_le_compat_r; lra).
    lra.
  - unfold point in *. exists v. split; [exact Hv |]. lra.
Qed.

End Accumulation.

(** C8, amended. For every series of at most 2^48 points that lie on
    the line y = x with x going down from 1.0 to 0.0, [auc] returns a
    finite number that differs from 1/2 by at most 5 * 2^-52 for each
    adjacent pair of points. *)
Theorem auc_diagonal_near_half (self : Curve) :
  on_diagonal self = true ->
  Z.of_nat (length (_points self)) <= 2 ^ 48 ->
  exists v : Q,
    value_of (auc self) = Some v
    /\ (Qabs (v - (1 # 2)) <= auc_tolerance (length (_points self)))%Q.
Proof.
  intros Hdiag Hlen.
  destruct (summation_on_diagonal (_points self) Hdiag Hlen)
    as (w & Hw & Herr).
  unfold auc. rewrite auc_of_accumulate, accumulate_adjacent_trapezoids.
  unfold value_is, SFis in Hw. unfold value_of.
  destruct (SFvalue (Prim2SF (accumulate_trapezoids 0 (_points self))))
    as [v |]; [| contradiction].
  exists v. split; [reflexivity |]. unfold auc_tolerance.
  rewrite Hw. exact Herr.
Qed.

Lemma auc_diagonal_near_half_witness :
  exists v : Q,
    value_of (auc {| _points := [(1, 1); (0.3, 0.3); (0, 0)]%float |})
    = Some v
    /\ (Qabs (v - (1 # 2)) <= auc_tolerance 3)%Q.
Proof.
  apply (auc_diagonal_near_half
           {| _points := [(1, 1); (0.3, 0.3); (0, 0)]%float |});
    [vm_compute; reflexivity | vm_compute; discriminate].
Defined.

(** ** Transforms *)

Lemma transform_x_points f self :
  _points (after (transform_x f) self)
  = (fun p : point => (f p.1, p.2)) <$> _points self.
Proof. reflexivity. Qed.

Lemma transform_y_points f self :
  _points (after (transform_y f) self)
  = (fun p : point => (p.1, f p.2)) <$> _points self.
Proof. reflexivity. Qed.

Lemma transform_points t self :
  _points (after (transform t) self)
  = (fun p : point => t p.1 p.2) <$> _points self.
Proof. reflexivity. Qed.

Lemma Curve_eq (c d : Curve) : _points c = _points d -> c = d.
Proof. destruct c, d; simpl; congruence. Qed.

(** C9. [transform_x] and [transform_y] with the identity function leave
    the point sequence unchanged, and [transform_x f] followed by
    [transform_x g] gives the series of a single [transform_x (g ∘ f)];
    likewise for [transform_y]. *)
Theorem transform_identity_and_composition :
  (forall self, after (transform_x (fun x => x)) self = self)
  /\ (forall self, after (transform_y (fun y => y)) self = self)
  /\ (forall f g self,
        after (transform_x g) (after (transform_x f) self)
        = after (transform_x (g ∘ f)) self)
  /\ (forall f g self,
        after (transform_y g) (after (transform_y f) self)
        = after (transform_y (g ∘ f)) self).
Proof.
  repeat split; intros; apply Curve_eq;
    rewrite ?transform_x_points, ?transform_y_points.
  - rewrite <- (list_fmap_id (_points self)) at 2.
    apply list_fmap_ext. intros _ [x y] _. reflexivity.
  - rewrite <- (list_fmap_id (_points self)) at 2.
    apply list_fmap_ext. intros _ [x y] _. reflexivity.
  - rewrite <- list_fmap_compose. reflexivity.
  - rewrite <- list_fmap_compose. reflexivity.
Qed.

(** C10. [transform], [transform_x] and [transform_y] with a total mapper
    return normally and keep the number of points and their order: the
    i-th point afterwards is the mapper applied to the i-th point before,
    and there is a point at position i afterwards exactly when there was
    one before. *)
Theorem transform_preserves_positions :
  (forall t self,
      outcome (transform t) self = ok tt
      /\ length (_points (after (transform t) self)) = length (_points self)
      /\ forall i : nat,
          _points (after (transform t) self) !! i
          = (fun p : point => t p.1 p.2) <$> (_points self !! i))
  /\ (forall f self,
      outcome (transform_x f) self = ok tt
      /\ length (_points (after (transform_x f) self))
         = length (_points self)
      /\ forall i : nat,
          _points (after (transform_x f) self) !! i
          = (fun p : point => (f p.1, p.2)) <$> (_points self !! i))
  /\ (forall f self,
      outcome (transform_y f) self = ok tt
      /\ length (_points (after (transform_y f) self))
         = length (_points self)
      /\ forall i : nat,
          _points (after (transform_y f) self) !! i
          = (fun p : point => (p.1, f p.2)) <$> (_points self !! i)).
Proof.
  split; [| split]; intros m self;
    rewrite ?transform_points, ?transform_x_points, ?transform_y_points;
    (split; [reflexivity |]); (split; [apply length_fmap |]);
    intros i; apply list_lookup_fmap.
Qed.

(** ** Coarsening *)

Lemma coarsen_both_or_neither kwds self :
  both_or_neither kwds -> coarsen kwds self = (self, throw (TypeError usage)).
Proof.
  intros [[He Hu] | [He Hu]]; unfold coarsen.
  - apply contains_true in He, Hu. rewrite He, Hu. reflexivity.
  - apply contains_false in He, Hu. rewrite He, Hu. reflexivity.
Qed.

(** With exactly one keyword the two usage checks are passed. *)
Lemma one_mode_flags kwds :
  one_mode kwds ->
  (contains kwds "every" = true /\ contains kwds "until" = false)
  \/ (contains kwds "every" = false /\ contains kwds "until" = true).
Proof.
  intros [[He Hu] | [He Hu]]; [left | right]; split;
    (apply contains_true + apply contains_false); assumption.
Qed.

Lemma flags_cases kwds :
  both_or_neither kwds \/ one_mode kwds.
Proof.
  unfold both_or_neither, one_mode.
  destruct (kwds !! "every") as [v |], (kwds !! "until") as [w |];
    eauto 6.
Qed.

(** C7. On the empty series, [coarsen] called with exactly one of
    [every] and [until], whatever its value, raises nothing and leaves
    the series empty. *)
Theorem coarsen_empty_noop (kwds : gmap string value) :
  one_mode kwds ->
  coarsen kwds {| _points := [] |} = ({| _points := [] |}, ok tt).
Proof.
  intros H. apply one_mode_flags in H as [[He Hu] | [He Hu]];
    unfold coarsen; rewrite He, Hu; reflexivity.
Qed.

Lemma coarsen_empty_noop_witness :
  one_mode {[ "until" := VNone ]}
  /\ coarsen {[ "until" := VNone ]} {| _points := [] |}
     = ({| _points := [] |}, ok tt).
Proof.
  assert (H : one_mode {[ "until" := VNone ]}).
  { right. split; [reflexivity | exists VNone; reflexivity]. }
  split; [exact H | apply (coarsen_empty_noop _ H)].
Defined.

Lemma int_mod_nonzero a b : b <> 0 -> int_mod a b = ok (a mod b).
Proof.
  intros H. unfold int_mod.
  destruct (Z.eqb_spec b 0); [contradiction | reflexivity].
Qed.

Lemma slice_step_ok {A} (l kept : list A) k :
  slice_step l k = ok kept ->
  k <> 0 /\ kept = omap (fun i => l !! Z.to_nat i) (slice_indices (len l) k).
Proof.
  unfold slice_step. destruct (Z.eqb_spec k 0); [discriminate |].
  intros [= <-]. split; [assumption | reflexivity].
Qed.

(** Unfold one call of [coarsen] whose keyword checks are settled. *)
Ltac enter_coarsen He Hu :=
  unfold coarsen; rewrite He, Hu; cbn [andb negb];
  unfold bind, get_points, lift, set_points, append_point, ret;
  unfold ok at 1; cbv beta iota.

(** Case on the next expression that may raise. *)
Tactic Notation "next_step" ident(e) ident(v) ident(H) :=
  lazymatch goal with
  | |- context [match ?r with inl _ => _ | inr _ => _ end] =>
      destruct r as [e | v] eqn:H
  end.

(** Every statement of [coarsen] that can raise comes before the first
    assignment to [self._points], or cannot raise where it stands. *)
Lemma coarsen_failure kwds self self' e :
  coarsen kwds self = (self', throw e) -> self' = self.
Proof.
  destruct (flags_cases kwds) as [H | H].
  - rewrite (coarsen_both_or_neither _ _ H). congruence.
  - apply one_mode_flags in H as [[He Hu] | [He Hu]]; enter_coarsen He Hu;
      (case_bool_decide as Hpts; [congruence |]).
    + next_step e1 k H1; [congruence |].
      next_step e2 kept H2; [congruence |].
      apply slice_step_ok in H2 as [Hk _].
      rewrite (int_mod_nonzero _ _ Hk).
      destruct (getitem_last _ Hpts) as (x & -> & _).
      unfold ok. destruct (negb _); discriminate.
    + next_step e1 k H1; [congruence |].
      next_step e2 step H2; [congruence |].
      next_step e3 chosen H3; [congruence |].
      next_step e4 x H4; [congruence |].
      unfold ok, throw. discriminate.
Qed.

(** C5. A [coarsen] call that raises leaves the point sequence of the
    series exactly as it was before the call. *)
Theorem coarsen_failure_atomic kwds self e :
  outcome (coarsen kwds) self = throw e ->
  after (coarsen kwds) self = self.
Proof.
  unfold outcome, after. destruct (coarsen kwds self) as [self' r] eqn:Hc.
  simpl. intros ->. exact (coarsen_failure _ _ _ _ Hc).
Qed.

Lemma coarsen_failure_atomic_witness :
  outcome (coarsen {[ "until" := VInt 1 ]})
          {| _points := [(1, 1); (0.5, 0.5); (0, 0)]%float |}
  = throw (ZeroDivisionError "float division by zero")
  /\ after (coarsen {[ "until" := VInt 1 ]})
           {| _points := [(1, 1); (0.5, 0.5); (0, 0)]%float |}
     = {| _points := [(1, 1); (0.5, 0.5); (0, 0)]%float |}.
Proof.
  assert (H : outcome (coarsen {[ "until" := VInt 1 ]})
                {| _points := [(1, 1); (0.5, 0.5); (0, 0)]%float |}
              = throw (ZeroDivisionError "float division by zero"))
    by (vm_compute; reflexivity).
  split; [exact H | exact (coarsen_failure_atomic _ _ _ H)].
Defined.

(** *** Which exceptions a call with one keyword can raise *)

Ltac other_error :=
  unfold ok, throw, rbind in *;
  repeat case_match; intros; simplify_eq; try reflexivity.

Lemma int_of_float_error f e :
  int_of_float f = throw e -> is_type_error e = false.
Proof. unfold int_of_float. other_error. Qed.

Lemma float_of_int_error z e :
  float_of_int z = throw e -> is_type_error e = false.
Proof. unfold float_of_int. other_error. Qed.

Lemma int_error v e :
  int v = throw e -> is_type_error e = false \/ (v = VNone /\ e = int_of_None).
Proof.
  destruct v as [z | f |]; simpl.
  - discriminate.
  - left. eauto using int_of_float_error.
  - intros [= <-]. right. split; reflexivity.
Qed.

Lemma dict_getitem_error {V} (d : gmap string V) key e :
  dict_getitem d key = throw e -> is_type_error e = false.
Proof. unfold dict_getitem. other_error. Qed.

Lemma getitem_error {A} (l : list A) i e :
  getitem l i = throw e -> is_type_error e = false.
Proof. unfold getitem. other_error. Qed.

Lemma slice_step_error {A} (l : list A) k e :
  slice_step l k = throw e -> is_type_error e = false.
Proof. unfold slice_step. other_error. Qed.

Lemma float_div_error a b e :
  float_div a b = throw e -> is_type_error e = false.
Proof. unfold float_div. other_error. Qed.

Lemma int_mod_error a b e :
  int_mod a b = throw e -> is_type_error e = false.
Proof. unfold int_mod. other_error. Qed.

Lemma xrange_error lo hi e :
  xrange lo hi = throw e -> is_type_error e = false.
Proof. unfold xrange. other_error. Qed.

Lemma rbind_error {A B} (m : result A) (k : A -> result B) e :
  rbind m k = throw e ->
  m = throw e \/ exists a, m = ok a /\ k a = throw e.
Proof.
  destruct m as [e' | a]; simpl; [intros [= ->]; left; reflexivity | eauto].
Qed.

Lemma rbind_error_free {A B} (m : result A) (k : A -> result B) b :
  rbind m k = ok b -> exists a, m = ok a /\ k a = ok b.
Proof. destruct m as [e | a]; simpl; [discriminate | eauto]. Qed.

Lemma keyword_int_error (kwds : gmap string value) key e :
  (let? v := dict_getitem kwds key in int v) = throw e ->
  is_type_error e = false \/ (kwds !! key = Some VNone /\ e = int_of_None).
Proof.
  intros H. apply rbind_error in H as [H | (v & Hv & H)].
  - left. eauto using dict_getitem_error.
  - apply int_error in H as [H | [-> ->]]; [left; exact H | right].
    unfold dict_getitem in Hv. destruct (kwds !! key); [| discriminate].
    injection Hv as ->. split; reflexivity.
Qed.

(** With exactly one keyword, the only [TypeError] there can be is the
    one of [int] applied to a keyword that holds [None]. *)
Lemma coarsen_one_mode_error kwds self self' e :
  one_mode kwds -> coarsen kwds self = (self', throw e) ->
  is_type_error e = false
  \/ (e = int_of_None
      /\ (kwds !! "every" = Some VNone \/ kwds !! "until" = Some VNone)).
Proof.
  intros H. apply one_mode_flags in H as [[He Hu] | [He Hu]];
    enter_coarsen He Hu; (case_bool_decide as Hpts; [discriminate |]).
  - next_step e1 k H1.
    { intros [= _ <-]. apply keyword_int_error in H1. tauto. }
    next_step e2 kept H2.
    { intros [= _ <-]. eauto using slice_step_error. }
    unfold ok at 1. cbv iota.
    next_step e3 r H3.
    { intros [= _ <-]. eauto using int_mod_error. }
    destruct (negb (r =? 0)); [| discriminate].
    next_step e4 x H4; [| discriminate].
    intros [= _ <-]. eauto using getitem_error.
  - next_step e1 k H1.
    { intros [= _ <-]. apply keyword_int_error in H1. tauto. }
    next_step e2 step H2.
    { intros [= _ <-]. left.
      apply rbind_error in H2 as [H2 | (kf & _ & H2)];
        [eauto using float_of_int_error |].
      apply rbind_error in H2 as [H2 | (nf & _ & H2)];
        eauto using float_of_int_error, float_div_error. }
    next_step e3 chosen H3.
    { intros [= _ <-]. left.
      apply rbind_error in H3 as [H3 | (idxs & _ & H3)];
        [eauto using xrange_error |].
      apply comprehension_throw in H3 as (idx & _ & H3).
      apply rbind_error in H3 as [H3 | (idxf & _ & H3)];
        [eauto using float_of_int_error |].
      apply rbind_error in H3 as [H3 | (i & _ & H3)];
        eauto using int_of_float_error, getitem_error. }
    next_step e4 x H4; [| discriminate].
    intros [= _ <-]. eauto using getitem_error.
Qed.

(** With one keyword, the empty series is left as it is. *)
Lemma coarsen_empty kwds self :
  one_mode kwds -> _points self = [] -> coarsen kwds self = (self, ok tt).
Proof.
  intros H Hpts. apply one_mode_flags in H as [[He Hu] | [He Hu]];
    enter_coarsen He Hu; rewrite bool_decide_eq_true_2 by exact Hpts;
    reflexivity.
Qed.

(** The [TypeError] asking to use either [every] or [until] is the
    outcome exactly when both keywords are given or neither is. *)
Lemma coarsen_usage_error kwds self :
  outcome (coarsen kwds) self = throw (TypeError usage)
  <-> both_or_neither kwds.
Proof.
  split.
  - intros Hout. destruct (flags_cases kwds) as [H | H]; [exact H |].
    unfold outcome in Hout.
    destruct (coarsen kwds self) as [self' r] eqn:Hc. simpl in Hout. subst r.
    apply (coarsen_one_mode_error _ _ _ _ H) in Hc as [Hc | [Hc _]];
      discriminate.
  - intros H. unfold outcome. rewrite (coarsen_both_or_neither _ _ H).
    reflexivity.
Qed.

(** With one keyword that holds [None], on a series that is not empty,
    [int(None)] raises before anything is assigned. *)
Lemma coarsen_None_keyword kwds self :
  one_mode kwds -> _points self <> [] ->
  kwds !! "every" = Some VNone \/ kwds !! "until" = Some VNone ->
  coarsen kwds self = (self, throw int_of_None).
Proof.
  intros Hone Hpts Hnone.
  assert (Hkey : (contains kwds "every" = true
                  /\ contains kwds "until" = false
                  /\ kwds !! "every" = Some VNone)
                 \/ (contains kwds "every" = false
                     /\ contains kwds "until" = true
                     /\ kwds !! "until" = Some VNone)).
  { destruct Hone as [[He Hu] | [He Hu]]; [left | right];
      (split; [| split]);
      try (apply contains_true; assumption);
      try (apply contains_false; assumption);
      destruct Hnone as [H | H]; congruence. }
  destruct Hkey as [(He & Hu & Hv) | (He & Hu & Hv)]; enter_coarsen He Hu;
    (case_bool_decide as Hp; [contradiction |]);
    unfold dict_getitem; rewrite Hv; reflexivity.
Qed.

(** C6 as stated fails: called with the one keyword [every=None] on a
    two-point series, [coarsen] raises a [TypeError] although exactly one
    of its two modes was chosen. *)
Lemma coarsen_None_keyword_type_error :
  one_mode {[ "every" := VNone ]}
  /\ ~ both_or_neither {[ "every" := VNone ]}
  /\ outcome (coarsen {[ "every" := VNone ]})
             {| _points := [(1, 1); (0, 0)]%float |}
     = throw int_of_None
  /\ is_type_error int_of_None = true.
Proof.
  split; [| split; [| split]].
  - left. split; [exists VNone; reflexivity | reflexivity].
  - intros [[_ [v Hv]] | [He _]]; discriminate.
  - vm_compute. reflexivity.
  - reflexivity.
Qed.

(** C6, amended. For every series and keyword values that are an int, a
    float or [None]: the usage error (the [TypeError] asking to use
    either [every] or [until]) is the outcome exactly when both keywords
    are given or neither is; and [coarsen] raises a [TypeError] of any
    kind exactly in that case or when it is called with one keyword that
    holds [None] on a series that is not empty. *)
Theorem coarsen_type_error_iff kwds self :
  (outcome (coarsen kwds) self = throw (TypeError usage)
   <-> both_or_neither kwds)
  /\ ((exists e, outcome (coarsen kwds) self = throw e
                 /\ is_type_error e = true)
      <-> both_or_neither kwds
          \/ (one_mode kwds /\ _points self <> []
              /\ (kwds !! "every" = Some VNone
                  \/ kwds !! "until" = Some VNone))).
Proof.
  split; [apply coarsen_usage_error |]. split.
  - intros (e & Hout & He).
    destruct (flags_cases kwds) as [H | H]; [left; exact H | right].
    split; [exact H |].
    destruct (decide (_points self = [])) as [Hempty | Hpts].
    + unfold outcome in Hout. rewrite (coarsen_empty _ _ H Hempty) in Hout.
      discriminate.
    + split; [exact Hpts |]. unfold outcome in Hout.
      destruct (coarsen kwds self) as [self' r] eqn:Hc. simpl in Hout.
      subst r.
      apply (coarsen_one_mode_error _ _ _ _ H) in Hc as [Hc | [_ Hc]];
        [congruence | exact Hc].
  - intros [H | (Hone & Hpts & Hnone)].
    + exists (TypeError usage). split; [| reflexivity].
      apply coarsen_usage_error, H.
    + exists int_of_None. split; [| reflexivity].
      unfold outcome. rewrite (coarsen_None_keyword _ _ Hone Hpts Hnone).
      reflexivity.
Qed.


(** *** [coarsen(every=k)] *)

Lemma omap_all_defined {A B} (f : A -> option B) (xs : list A) :
  Forall (fun x => is_Some (f x)) xs ->
  length (omap f xs) = length xs
  /\ forall j : nat, omap f xs !! j = xs !! j ≫= f.
Proof.
  induction 1 as [| x xs [y Hy] _ [IHlen IHnth]]; simpl.
  - split; [reflexivity | intros j; reflexivity].
  - rewrite Hy. simpl. split; [f_equal; exact IHlen |].
    intros [| j]; simpl; [symmetry; exact Hy | apply IHnth].
Qed.

(** For a positive step the slice holds ceil(n/k) points, the j-th of
    them being the original point at position j*k. *)
Lemma slice_step_positive {A} (l kept : list A) k :
  0 < k -> slice_step l k = ok kept ->
  len kept = (len l + k - 1) / k
  /\ forall j : nat,
      (j < length kept)%nat -> kept !! j = l !! (j * Z.to_nat k)%nat.
Proof.
  intros Hk Hs. apply slice_step_ok in Hs as [_ ->].
  unfold slice_indices. destruct (Z.ltb_spec 0 k) as [_ | ?]; [| lia].
  set (m := (len l + k - 1) / k).
  assert (Hm : 0 <= m) by (apply Z.div_pos; pose proof (len_nonneg l); lia).
  assert (Hin : forall j, 0 <= j < m -> 0 <= j * k < len l).
  { intros j Hj. split; [nia |].
    pose proof (Z.mul_div_le (len l + k - 1) k Hk). fold m in H. nia. }
  destruct (omap_all_defined (fun i => l !! Z.to_nat i)
              ((fun j => j * k) <$> seqZ 0 m)) as [Hlen Hnth].
  { apply Forall_fmap, Forall_forall. intros j Hj. simpl.
    apply elem_of_seqZ in Hj. apply lookup_lt_is_Some.
    specialize (Hin j ltac:(lia)). unfold len in Hin. lia. }
  split.
  - unfold len at 1. rewrite Hlen, length_fmap, length_seqZ. lia.
  - intros j Hj. rewrite Hnth, list_lookup_fmap.
    rewrite Hlen, length_fmap, length_seqZ in Hj.
    rewrite (lookup_seqZ_lt 0 m j) by lia. simpl.
    f_equal. lia.
Qed.

(** What a call with [every=k] for a nonzero integer [k] does to a
    non-empty series. *)
Lemma coarsen_every kwds self k :
  kwds !! "every" = Some (VInt k) -> kwds !! "until" = None ->
  _points self <> [] -> k <> 0 ->
  exists kept x,
    slice_step (_points self) k = ok kept
    /\ last (_points self) = Some x
    /\ coarsen kwds self
       = ({| _points :=
               kept ++ (if len (_points self) mod k =? 0 then [] else [x]) |},
          ok tt).
Proof.
  intros Hev Hun Hpts Hk.
  assert (He : contains kwds "every" = true)
    by (apply contains_true; rewrite Hev; eauto).
  assert (Hu : contains kwds "until" = false) by (apply contains_false, Hun).
  destruct (getitem_last _ Hpts) as (x & Hx & Hlast).
  destruct (slice_step (_points self) k) as [e | kept] eqn:Hs.
  { unfold slice_step in Hs. destruct (Z.eqb_spec k 0); [lia | discriminate]. }
  exists kept, x. split; [reflexivity |]. split; [exact Hlast |].
  enter_coarsen He Hu. rewrite bool_decide_eq_false_2 by exact Hpts.
  unfold dict_getitem. rewrite Hev. simpl. rewrite Hs.
  unfold ok at 1. cbv iota.
  rewrite (int_mod_nonzero _ _ Hk), Hx. unfold ok. cbv iota.
  destruct (len (_points self) mod k =? 0); simpl.
  - rewrite app_nil_r. reflexivity.
  - reflexivity.
Qed.

(** For k >= 1 the call keeps the points at positions 0, k, 2k, ..., the
    first point among them, and has ceil(n/k) points afterwards, plus
    one when k does not divide n. *)
Lemma coarsen_every_count kwds self k :
  kwds !! "every" = Some (VInt k) -> kwds !! "until" = None ->
  _points self <> [] -> 1 <= k ->
  outcome (coarsen kwds) self = ok tt
  /\ len (_points (after (coarsen kwds) self))
     = (len (_points self) + k - 1) / k
       + (if len (_points self) mod k =? 0 then 0 else 1)
  /\ head (_points (after (coarsen kwds) self)) = head (_points self)
  /\ forall j : nat,
      Z.of_nat j < (len (_points self) + k - 1) / k ->
      _points (after (coarsen kwds) self) !! j
      = _points self !! (j * Z.to_nat k)%nat.
Proof.
  intros Hev Hun Hpts Hk.
  destruct (coarsen_every kwds self k) as (kept & x & Hs & _ & Hc);
    [assumption .. | lia |].
  unfold outcome, after. rewrite Hc. simpl.
  destruct (slice_step_positive _ _ k ltac:(lia) Hs) as [Hlen Hnth].
  assert (Hpos : 0 < (len (_points self) + k - 1) / k).
  { pose proof (len_pos _ Hpts). apply Z.div_str_pos. lia. }
  split; [reflexivity |]. split; [| split].
  - unfold len at 1. rewrite length_app. fold (len kept) in *.
    destruct (len (_points self) mod k =? 0); simpl; unfold len in *; lia.
  - destruct kept as [| p kept]; [unfold len in *; simpl in *; lia |].
    simpl. specialize (Hnth 0%nat ltac:(simpl; lia)). simpl in Hnth.
    rewrite head_lookup, <- Hnth. reflexivity.
  - intros j Hj. rewrite lookup_app_l by (unfold len in *; lia).
    apply Hnth. unfold len in *. lia.
Qed.

(** When k >= 2 divides n, nothing is appended and the last point kept
    is the one at position n-k, short of the last original point. *)
Lemma coarsen_every_divisible kwds self k :
  kwds !! "every" = Some (VInt k) -> kwds !! "until" = None ->
  _points self <> [] -> 2 <= k -> len (_points self) mod k = 0 ->
  last (_points (after (coarsen kwds) self))
  = _points self !! Z.to_nat (len (_points self) - k).
Proof.
  intros Hev Hun Hpts Hk Hdiv.
  destruct (coarsen_every kwds self k) as (kept & x & Hs & _ & Hc);
    [assumption .. | lia |].
  unfold after. rewrite Hc. simpl. rewrite Hdiv. simpl. rewrite app_nil_r.
  destruct (slice_step_positive _ _ k ltac:(lia) Hs) as [Hlen Hnth].
  pose proof (len_pos _ Hpts) as Hn.
  apply Z.mod_divide in Hdiv as [q Hq]; [| lia].
  assert (Hlen' : len kept = q).
  { rewrite Hlen, Hq. replace (q * k + k - 1) with (k - 1 + q * k) by lia.
    rewrite Z.div_add by lia. rewrite Z.div_small by lia. lia. }
  rewrite last_lookup. rewrite Hnth by (unfold len in *; lia).
  f_equal. unfold len in *. nia.
Qed.

(** C3. On the four-point series p0, p1, p2, p3 the call
    [coarsen(every=2)] keeps positions 0 and 2 and appends nothing, since
    2 divides 4: the series ends at p2, and the original last point p3
    is kept only if it equals p2. *)
Theorem coarsen_every_loses_last_point :
  (forall p0 p1 p2 p3 : point,
      coarsen {[ "every" := VInt 2 ]} {| _points := [p0; p1; p2; p3] |}
      = ({| _points := [p0; p2] |}, ok tt))
  /\ last (_points (after (coarsen {[ "every" := VInt 2 ]})
             {| _points := [(1, 1); (0.75, 0.5); (0.5, 0.25); (0, 0)]%float |}))
     = Some (0.5, 0.25)%float
  /\ last [(1, 1); (0.75, 0.5); (0.5, 0.25); (0, 0)]%float
     = Some (0, 0)%float.
Proof.
  split; [| split].
  - intros p0 p1 p2 p3. reflexivity.
  - vm_compute. reflexivity.
  - reflexivity.
Qed.

(** *** [coarsen(until=k)] *)

(** [until=1] divides by zero. *)
Lemma until_one_step n e_or_step :
  (let? kf := float_of_int 1 in
   let? nf := float_of_int n in
   float_div nf (kf - 1)%float) = e_or_step ->
  exists e, e_or_step = throw e.
Proof.
  intros <-. change (float_of_int 1) with (ok 1%float). simpl.
  destruct (float_of_int n) as [e | nf]; simpl; [eauto |].
  unfold float_div. change (PrimFloat.eqb (1 - 1) 0) with true. eauto.
Qed.

(** A successful call with [until=k] on a non-empty series leaves the
    k-2 points chosen by the comprehension (none when k < 2) followed by
    the last original point. *)
Lemma coarsen_until_count kwds self self' k :
  kwds !! "until" = Some (VInt k) -> kwds !! "every" = None ->
  _points self <> [] ->
  coarsen kwds self = (self', ok tt) ->
  len (_points self') = Z.max (k - 2) 0 + 1
  /\ last (_points self') = last (_points self)
  /\ k <> 1.
Proof.
  intros Hun Hev Hpts.
  assert (He : contains kwds "every" = false) by (apply contains_false, Hev).
  assert (Hu : contains kwds "until" = true)
    by (apply contains_true; rewrite Hun; eauto).
  enter_coarsen He Hu. rewrite bool_decide_eq_false_2 by exact Hpts.
  unfold dict_getitem. rewrite Hun. simpl.
  next_step e2 step H2; [discriminate |].
  next_step e3 chosen H3; [discriminate |].
  destruct (getitem_last _ Hpts) as (x & -> & Hlast).
  unfold ok. cbv iota. intros [= <-]. simpl.
  apply rbind_error_free in H3 as (idxs & Hidxs & H3).
  apply comprehension_length in H3.
  unfold xrange in Hidxs.
  destruct (_ || _); [discriminate |]. injection Hidxs as <-.
  rewrite length_seqZ in H3.
  split; [| split].
  - unfold len. rewrite length_app, H3. simpl. lia.
  - rewrite last_snoc. symmetry. exact Hlast.
  - intros ->. apply until_one_step in H2 as [e He']. discriminate.
Qed.

(** So the series never has exactly k points after [until=k]. *)
Lemma coarsen_until_never_k kwds self self' k :
  kwds !! "until" = Some (VInt k) -> kwds !! "every" = None ->
  _points self <> [] ->
  coarsen kwds self = (self', ok tt) ->
  len (_points self') <> k.
Proof.
  intros Hun Hev Hpts Hc.
  destruct (coarsen_until_count _ _ _ _ Hun Hev Hpts Hc) as (Hlen & _ & Hk).
  lia.
Qed.

(** C2. [coarsen(until=k)] on a series of n >= k points does not leave k
    points including the first: with n = 4, [until=3] leaves the two
    points p1, p3 and [until=2] leaves p3 alone.  On a series of n < k
    points it is not a no-op: with n = 2, [until=4] leaves p0, p0, p1. *)
Theorem coarsen_until_miscounts :
  (forall p0 p1 p2 p3 : point,
      coarsen {[ "until" := VInt 3 ]} {| _points := [p0; p1; p2; p3] |}
      = ({| _points := [p1; p3] |}, ok tt))
  /\ (forall p0 p1 p2 p3 : point,
      coarsen {[ "until" := VInt 2 ]} {| _points := [p0; p1; p2; p3] |}
      = ({| _points := [p3] |}, ok tt))
  /\ (forall p0 p1 : point,
      coarsen {[ "until" := VInt 4 ]} {| _points := [p0; p1] |}
      = ({| _points := [p0; p0; p1] |}, ok tt)).
Proof.
  split; [| split]; intros; vm_compute; reflexivity.
Qed.

(** ** Constructing the performance curves *)

Section PerformanceFacts.

Context {BinaryConfusionMatrix BinaryClassifierData raw threshold : Type}.
Variable structured : raw -> result BinaryClassifierData.
Variable iter_confusion_matrices :
  BinaryClassifierData ->
  list (threshold * BinaryConfusionMatrix) * option exn.
Variables fpr tpr recall precision fdp :
  BinaryConfusionMatrix -> result float.

(** [_calculate_points] returns a list exactly when the generator stops
    without raising and both metrics return on every matrix; the list
    then holds their values, in the order of the source. *)
Lemma _calculate_points_callable fx fy data points :
  _calculate_points iter_confusion_matrices data (Callable fx) (Callable fy)
  = ok points
  <-> (iter_confusion_matrices data).2 = None
      /\ metric_points fx fy (iter_confusion_matrices data).1 points.
Proof.
  unfold _calculate_points, metric_points.
  destruct (iter_confusion_matrices data) as [pairs ending].
  cbv beta iota. cbn [fst snd]. split.
  - intros Hrun. apply rbind_error_free in Hrun as (pts & Hpts & Hend).
    destruct ending as [e |]; [discriminate |]. injection Hend as <-.
    split; [reflexivity |].
    apply comprehension_ok in Hpts.
    eapply Forall2_impl; [exact Hpts |].
    intros [t mat] [x y] Hxy. simpl in *.
    destruct (fx mat) as [e | x']; [discriminate |].
    destruct (fy mat) as [e | y']; [discriminate |].
    injection Hxy as <- <-. split; reflexivity.
  - intros [-> Hpts].
    assert (Hrun : comprehension
              (fun '(_, mat) => let? x := call (Callable fx) mat in
                                let? y := call (Callable fy) mat in
                                ok (x, y)) pairs = ok points).
    { apply comprehension_ok. eapply Forall2_impl; [exact Hpts |].
      intros [t mat] [x y] [Hx Hy]. simpl in *. rewrite Hx, Hy.
      reflexivity. }
    rewrite Hrun. reflexivity.
Qed.

(** The sibling constructors name their own class: [super] resolves and
    they run [BinaryClassifierPerformanceCurve.__init__] with their pair
    of accessors. *)
Lemma ROCCurve_delegates data :
  ROCCurve structured iter_confusion_matrices fpr tpr data
  = BinaryClassifierPerformanceCurve_init structured iter_confusion_matrices
      cls_ROCCurve data (Callable fpr) (Callable tpr).
Proof. reflexivity. Qed.

Lemma PrecisionRecallCurve_delegates data :
  PrecisionRecallCurve structured iter_confusion_matrices recall precision
                       data
  = BinaryClassifierPerformanceCurve_init structured iter_confusion_matrices
      cls_PrecisionRecallCurve data (Callable recall) (Callable precision).
Proof. reflexivity. Qed.

(** Had [AccumulationCurve.__init__] named its own class in [super],
    it would run [BinaryClassifierPerformanceCurve.__init__] with the
    (fdp, tpr) pair. *)
Lemma AccumulationCurve_own_super data :
  super_init structured iter_confusion_matrices
             cls_AccumulationCurve cls_AccumulationCurve data
             (Callable fdp) (Callable tpr)
  = BinaryClassifierPerformanceCurve_init structured iter_confusion_matrices
      cls_AccumulationCurve data (Callable fdp) (Callable tpr).
Proof. reflexivity. Qed.

(** C4. Constructing an [AccumulationCurve] raises a [TypeError] for
    every dataset: its [__init__] asks for [super(PrecisionRecallCurve,
    self)] on an object that is not a [PrecisionRecallCurve], so no
    metric is bound and no point series is computed. *)
Theorem AccumulationCurve_raises data :
  AccumulationCurve structured iter_confusion_matrices fdp tpr data
  = throw (TypeError
      "super(type, obj): obj must be an instance or subtype of type").
Proof. reflexivity. Qed.

End PerformanceFacts.

(** * Further properties of the module *)

Set Warnings "-clear-no-such-hyp".

(** ** More on [coarsen(every=k)] *)

(** A negative step walks the list from its last element. *)
Lemma slice_step_negative {A} (l kept : list A) k :
  k < 0 -> slice_step l k = ok kept ->
  len kept = (len l + (- k) - 1) / (- k)
  /\ forall j : nat,
      (j < length kept)%nat ->
      kept !! j = l !! Z.to_nat (len l - 1 + Z.of_nat j * k).
Proof.
  intros Hk Hs. apply slice_step_ok in Hs as [_ ->].
  unfold slice_indices. destruct (Z.ltb_spec 0 k) as [? | _]; [lia |].
  set (m := (len l + (- k) - 1) / (- k)).
  assert (Hm : 0 <= m) by (apply Z.div_pos; pose proof (len_nonneg l); lia).
  assert (Hin : forall j, 0 <= j < m -> 0 <= len l - 1 + j * k < len l).
  { intros j Hj.
    pose proof (Z.mul_div_le (len l + (- k) - 1) (- k) ltac:(lia)) as H.
    fold m in H. nia. }
  destruct (omap_all_defined (fun i => l !! Z.to_nat i)
              ((fun j => len l - 1 + j * k) <$> seqZ 0 m)) as [Hlen Hnth].
  { apply Forall_fmap, Forall_forall. intros j Hj. simpl.
    apply elem_of_seqZ in Hj. apply lookup_lt_is_Some.
    specialize (Hin j ltac:(lia)). unfold len in *. lia. }
  split.
  - unfold len at 1. rewrite Hlen, length_fmap, length_seqZ. lia.
  - intros j Hj. rewrite Hnth, list_lookup_fmap.
    rewrite Hlen, length_fmap, length_seqZ in Hj.
    rewrite (lookup_seqZ_lt 0 m j) by lia. simpl.
    f_equal; try lia.
Qed.

Lemma slice_step_one {A} (l : list A) : slice_step l 1 = ok l.
Proof.
  destruct (slice_step l 1) as [e | kept] eqn:Hs; [discriminate |].
  destruct (slice_step_positive l kept 1 ltac:(lia) Hs) as [Hlen Hnth].
  f_equal. apply list_eq. intros j.
  replace (len l + 1 - 1) with (len l) in Hlen by lia.
  rewrite Z.div_1_r in Hlen. unfold len in Hlen.
  destruct (decide (j < length kept)%nat) as [Hj | Hj].
  - rewrite Hnth by exact Hj. f_equal. lia.
  - rewrite !lookup_ge_None_2 by lia. reflexivity.
Qed.

Lemma slice_step_minus_one {A} (l : list A) : slice_step l (-1) = ok (reverse l).
Proof.
  destruct (slice_step l (-1)) as [e | kept] eqn:Hs; [discriminate |].
  destruct (slice_step_negative l kept (-1) ltac:(lia) Hs) as [Hlen Hnth].
  f_equal. apply list_eq. intros j.
  replace (len l + - -1 - 1) with (len l) in Hlen by lia.
  change (- -1) with 1 in Hlen. rewrite Z.div_1_r in Hlen. unfold len in Hlen.
  destruct (decide (j < length kept)%nat) as [Hj | Hj].
  - rewrite Hnth by exact Hj. rewrite reverse_lookup by lia.
    f_equal. unfold len. lia.
  - rewrite !lookup_ge_None_2; [reflexivity | rewrite length_reverse; lia | lia].
Qed.

Lemma slice_step_subset {A} (l kept : list A) k :
  slice_step l k = ok kept -> kept ⊆ l.
Proof.
  intros Hs. apply slice_step_ok in Hs as [_ ->]. intros x Hx.
  apply list_elem_of_omap in Hx as (i & _ & Hi).
  eapply list_elem_of_lookup_2, Hi.
Qed.

Lemma slice_step_nonempty {A} (l kept : list A) k :
  l <> [] -> slice_step l k = ok kept -> kept <> [].
Proof.
  intros Hl Hs. pose proof (len_pos l Hl) as Hn.
  pose proof Hs as Hk. apply slice_step_ok in Hk as [Hk _].
  assert (Hlen : 0 < len kept).
  { destruct (Z.lt_total k 0) as [Hneg | [? | Hpos]]; [| lia |].
    - destruct (slice_step_negative l kept k Hneg Hs) as [-> _].
      apply Z.div_str_pos. lia.
    - destruct (slice_step_positive l kept k Hpos Hs) as [-> _].
      apply Z.div_str_pos. lia. }
  intros ->. unfold len in Hlen. simpl in Hlen. lia.
Qed.

Lemma getitem_elem_of {A} (l : list A) i x : getitem l i = ok x -> x ∈ l.
Proof.
  unfold getitem. destruct (_ || _); [discriminate |].
  destruct (l !! _) as [y |] eqn:Hy; [| discriminate].
  intros [= <-]. eapply list_elem_of_lookup_2, Hy.
Qed.

Lemma comprehension_Forall {A B} (P : B -> Prop) (f : A -> result B) l bs :
  (forall a b, f a = ok b -> P b) ->
  comprehension f l = ok bs -> Forall P bs.
Proof.
  intros Hf. revert bs. induction l as [| a l IH]; intros bs; simpl.
  - intros [= <-]. constructor.
  - destruct (f a) as [e | b] eqn:Hb; simpl; [discriminate |].
    destruct (comprehension f l) as [e | bs']; simpl; [discriminate |].
    intros [= <-]. constructor; [eapply Hf, Hb | apply IH; reflexivity].
Qed.

(** The three ways a call can end: nothing assigned, the [every] branch,
    the [until] branch. *)
Lemma coarsen_result kwds self self' r :
  coarsen kwds self = (self', r) ->
  self' = self
  \/ (exists k kept x,
        slice_step (_points self) k = ok kept
        /\ last (_points self) = Some x
        /\ _points self' = kept ++ (if len (_points self) mod k =? 0
                                    then [] else [x]))
  \/ (exists chosen x,
        Forall (fun p => p ∈ _points self) chosen
        /\ last (_points self) = Some x
        /\ _points self' = chosen ++ [x]).
Proof.
  destruct (flags_cases kwds) as [H | H].
  { rewrite (coarsen_both_or_neither _ _ H). intros [= <- _]. left; reflexivity. }
  apply one_mode_flags in H as [[He Hu] | [He Hu]]; enter_coarsen He Hu;
    (case_bool_decide as Hpts; [intros [= <- _]; left; reflexivity |]);
    destruct (getitem_last _ Hpts) as (x & Hx & Hlast).
  - next_step e1 k H1; [intros [= <- _]; left; reflexivity |].
    next_step e2 kept H2; [intros [= <- _]; left; reflexivity |].
    pose proof H2 as Hk. apply slice_step_ok in Hk as [Hk _].
    rewrite (int_mod_nonzero _ _ Hk), Hx. unfold ok. cbv iota.
    intros Hc. right; left. exists k, kept, x.
    split; [exact H2 |]. split; [exact Hlast |].
    destruct (len (_points self) mod k =? 0); simpl in Hc;
      injection Hc as <- _; simpl; [rewrite app_nil_r |]; reflexivity.
  - next_step e1 k H1; [intros [= <- _]; left; reflexivity |].
    next_step e2 step H2; [intros [= <- _]; left; reflexivity |].
    next_step e3 chosen H3; [intros [= <- _]; left; reflexivity |].
    rewrite Hx. unfold ok. cbv iota. intros [= <- _].
    right; right. exists chosen, x. split; [| split; [exact Hlast | reflexivity]].
    apply rbind_error_free in H3 as (idxs & _ & H3).
    eapply comprehension_Forall, H3. intros idx p Hp.
    apply rbind_error_free in Hp as (idxf & _ & Hp).
    apply rbind_error_free in Hp as (i & _ & Hp).
    eapply getitem_elem_of, Hp.
Qed.

(** [coarsen] only selects: whatever the keywords and however the call
    ends, every point of the series afterwards is a point of the series
    before. *)
Theorem coarsen_invents_no_point kwds self :
  _points (after (coarsen kwds) self) ⊆ _points self.
Proof.
  unfold after. destruct (coarsen kwds self) as [self' r] eqn:Hc. simpl.
  apply coarsen_result in Hc
    as [-> | [(k & kept & x & Hs & Hx & ->) | (chosen & x & Hch & Hx & ->)]].
  - reflexivity.
  - intros p Hp. apply elem_of_app in Hp as [Hp | Hp].
    + eapply slice_step_subset; eassumption.
    + destruct (_ =? _); [inversion Hp |].
      apply list_elem_of_singleton in Hp as ->. apply last_Some_elem_of, Hx.
  - intros p Hp. apply elem_of_app in Hp as [Hp | Hp].
    + rewrite Forall_forall in Hch. apply Hch, Hp.
    + apply list_elem_of_singleton in Hp as ->. apply last_Some_elem_of, Hx.
Qed.

(** [coarsen] never empties a series that has a point. *)
Theorem coarsen_never_empties kwds self :
  _points self <> [] -> _points (after (coarsen kwds) self) <> [].
Proof.
  intros Hne. unfold after. destruct (coarsen kwds self) as [self' r] eqn:Hc.
  simpl. apply coarsen_result in Hc
    as [-> | [(k & kept & x & Hs & Hx & ->) | (chosen & x & Hch & Hx & ->)]].
  - exact Hne.
  - pose proof (slice_step_nonempty _ _ _ Hne Hs) as Hk.
    destruct kept; [congruence | discriminate].
  - destruct chosen; discriminate.
Qed.

(** [coarsen(every=1)] keeps every point and appends nothing: the
    series is unchanged. *)
Theorem coarsen_every_one_keeps_all kwds self :
  kwds !! "every" = Some (VInt 1) -> kwds !! "until" = None ->
  coarsen kwds self = (self, ok tt).
Proof.
  intros Hev Hun. destruct (decide (_points self = [])) as [Hpts | Hpts].
  { apply coarsen_empty; [| exact Hpts]. left. rewrite Hev. eauto. }
  destruct (coarsen_every kwds self 1) as (kept & x & Hs & _ & ->);
    [assumption .. | lia |].
  rewrite slice_step_one in Hs. injection Hs as <-.
  rewrite Z.mod_1_r. simpl. rewrite app_nil_r. destruct self; reflexivity.
Qed.

Lemma coarsen_every_one_keeps_all_witness :
  coarsen {[ "every" := VInt 1 ]}
          {| _points := [(1, 1); (0.5, 0.75); (0, 0)]%float |}
  = ({| _points := [(1, 1); (0.5, 0.75); (0, 0)]%float |}, ok tt).
Proof.
  apply coarsen_every_one_keeps_all; reflexivity.
Defined.

(** A negative step is not refused: [coarsen(every=-1)] reverses the
    series. *)
Theorem coarsen_every_minus_one_reverses kwds self :
  kwds !! "every" = Some (VInt (-1)) -> kwds !! "until" = None ->
  coarsen kwds self = ({| _points := reverse (_points self) |}, ok tt).
Proof.
  intros Hev Hun. destruct (decide (_points self = [])) as [Hpts | Hpts].
  { rewrite coarsen_empty; [| left; rewrite Hev; eauto | exact Hpts].
    destruct self as [l]. simpl in *. subst l. reflexivity. }
  destruct (coarsen_every kwds self (-1)) as (kept & x & Hs & _ & ->);
    [assumption .. | lia |].
  rewrite slice_step_minus_one in Hs. injection Hs as <-.
  replace (len (_points self) mod -1) with 0
    by (symmetry; apply Z.mod_divide; [lia | exists (- len (_points self)); lia]).
  simpl. rewrite app_nil_r. reflexivity.
Qed.

Lemma coarsen_every_minus_one_reverses_witness :
  coarsen {[ "every" := VInt (-1) ]}
          {| _points := [(1, 1); (0.5, 0.75); (0, 0)]%float |}
  = ({| _points := [(0, 0); (0.5, 0.75); (1, 1)]%float |}, ok tt).
Proof.
  apply (coarsen_every_minus_one_reverses {[ "every" := VInt (-1) ]}
           {| _points := [(1, 1); (0.5, 0.75); (0, 0)]%float |});
    reflexivity.
Defined.

(** With a step larger than the number of points, [coarsen(every=k)]
    leaves the first point followed by the last one (twice the same
    point for a one-point series). *)
Theorem coarsen_every_beyond_length kwds self k :
  kwds !! "every" = Some (VInt k) -> kwds !! "until" = None ->
  _points self <> [] -> len (_points self) < k ->
  exists first last_point,
    head (_points self) = Some first
    /\ last (_points self) = Some last_point
    /\ coarsen kwds self = ({| _points := [first; last_point] |}, ok tt).
Proof.
  intros Hev Hun Hpts Hk. pose proof (len_pos _ Hpts) as Hn.
  destruct (coarsen_every kwds self k) as (kept & x & Hs & Hx & ->);
    [assumption .. | lia |].
  destruct (slice_step_positive _ _ k ltac:(lia) Hs) as [Hlen Hnth].
  assert (Hone : len kept = 1).
  { rewrite Hlen. replace (len (_points self) + k - 1)
      with (len (_points self) - 1 + 1 * k) by lia.
    rewrite Z.div_add by lia. rewrite Z.div_small by lia. lia. }
  destruct kept as [| p [| q kept]]; unfold len in Hone; simpl in Hone;
    [lia | | lia].
  specialize (Hnth 0%nat ltac:(simpl; lia)). simpl in Hnth.
  exists p, x. split; [rewrite head_lookup; symmetry; exact Hnth |].
  split; [exact Hx |].
  rewrite Z.mod_small by lia.
  destruct (Z.eqb_spec (len (_points self)) 0); [lia | reflexivity].
Qed.

Lemma coarsen_every_beyond_length_witness :
  exists first last_point,
    head [(1, 1); (0.5, 0.75); (0, 0)]%float = Some first
    /\ last [(1, 1); (0.5, 0.75); (0, 0)]%float = Some last_point
    /\ coarsen {[ "every" := VInt 5 ]}
               {| _points := [(1, 1); (0.5, 0.75); (0, 0)]%float |}
       = ({| _points := [first; last_point] |}, ok tt).
Proof.
  apply (coarsen_every_beyond_length {[ "every" := VInt 5 ]}
           {| _points := [(1, 1); (0.5, 0.75); (0, 0)]%float |} 5);
    [reflexivity | reflexivity | discriminate | reflexivity].
Defined.

(** [coarsen(until=1)] on a series with a point always raises, from the
    division by k-1, and leaves the series as it was. *)
Theorem coarsen_until_one_raises kwds self :
  kwds !! "until" = Some (VInt 1) -> kwds !! "every" = None ->
  _points self <> [] ->
  exists e, coarsen kwds self = (self, throw e)
            /\ (e = ZeroDivisionError "float division by zero"
                \/ e = OverflowError "long int too large to convert to float").
Proof.
  intros Hun Hev Hpts.
  assert (He : contains kwds "every" = false) by (apply contains_false, Hev).
  assert (Hu : contains kwds "until" = true)
    by (apply contains_true; rewrite Hun; eauto).
  enter_coarsen He Hu. rewrite bool_decide_eq_false_2 by exact Hpts.
  unfold dict_getitem. rewrite Hun. simpl.
  change (float_of_int 1) with (ok 1%float). simpl.
  unfold float_of_int. destruct (is_infinity _); simpl.
  - eexists. split; [reflexivity | right; reflexivity].
  - unfold float_div. change (PrimFloat.eqb (1 - 1) 0) with true. simpl.
    eexists. split; [reflexivity | left; reflexivity].
Qed.

Lemma coarsen_until_one_raises_witness :
  exists e, coarsen {[ "until" := VInt 1 ]}
                    {| _points := [(1, 1); (0, 0)]%float |}
            = ({| _points := [(1, 1); (0, 0)]%float |}, throw e)
            /\ (e = ZeroDivisionError "float division by zero"
                \/ e = OverflowError "long int too large to convert to float").
Proof.
  apply (coarsen_until_one_raises {[ "until" := VInt 1 ]}
           {| _points := [(1, 1); (0, 0)]%float |});
    [reflexivity | reflexivity | discriminate].
Defined.

Lemma len_fmap {A B} (g : A -> B) l : len (g <$> l) = len l.
Proof. unfold len. rewrite length_fmap. reflexivity. Qed.

Lemma getitem_fmap {A B} (g : A -> B) l i :
  getitem (g <$> l) i = rmap g (getitem l i).
Proof.
  unfold getitem. rewrite len_fmap. destruct (_ || _); [reflexivity |].
  rewrite list_lookup_fmap. destruct (l !! _); reflexivity.
Qed.

Lemma slice_step_fmap {A B} (g : A -> B) l k :
  slice_step (g <$> l) k = rmap (fmap g) (slice_step l k).
Proof.
  unfold slice_step. destruct (k =? 0); [reflexivity |]. simpl.
  rewrite len_fmap, list_fmap_omap. unfold ok. f_equal.
  apply list_omap_ext, Forall2_same_length_lookup_2; [reflexivity |].
  intros i x y Hx Hy. rewrite Hx in Hy. injection Hy as <-.
  apply list_lookup_fmap.
Qed.

Lemma comprehension_fmap {A B C} (g : B -> C) (f : A -> result B) l :
  comprehension (fun a => rmap g (f a)) l = rmap (fmap g) (comprehension f l).
Proof.
  induction l as [| a l IH]; [reflexivity |]. simpl. rewrite IH.
  destruct (f a); simpl; [reflexivity |].
  destruct (comprehension f l); reflexivity.
Qed.

Lemma comprehension_ext {A B} (f f' : A -> result B) l :
  (forall a, f a = f' a) -> comprehension f l = comprehension f' l.
Proof.
  intros H. induction l as [| a l IH]; [reflexivity |]. simpl.
  rewrite H, IH. reflexivity.
Qed.

Lemma coarsen_fmap kwds (g : point -> point) self self' r :
  coarsen kwds self = (self', r) ->
  coarsen kwds {| _points := g <$> _points self |}
  = ({| _points := g <$> _points self' |}, r).
Proof.
  destruct (flags_cases kwds) as [H | H].
  { rewrite !(coarsen_both_or_neither _ _ H). intros [= <- <-]. reflexivity. }
  apply one_mode_flags in H as [[He Hu] | [He Hu]];
    unfold coarsen; rewrite !He, !Hu; cbn [andb negb];
    unfold bind, get_points, lift, set_points, append_point, ret, ok;
    cbv beta iota; cbn [_points].
  - case_bool_decide as Hpts.
    { intros [= <- <-]. rewrite Hpts. reflexivity. }
    rewrite bool_decide_eq_false_2 by (intros Hg; apply fmap_nil_inv in Hg; auto).
    destruct (let? v := dict_getitem kwds "every" in int v) as [e1 | k];
      [intros [= <- <-]; reflexivity |].
    rewrite slice_step_fmap, len_fmap, getitem_fmap.
    destruct (slice_step (_points self) k) as [e2 | kept];
      [intros [= <- <-]; reflexivity |].
    simpl.
    destruct (int_mod (len (_points self)) k) as [e3 | m];
      [intros [= <- <-]; reflexivity |].
    destruct (negb (m =? 0)); [| intros [= <- <-]; reflexivity].
    destruct (getitem (_points self) (-1)) as [e4 | x]; simpl;
      intros [= <- <-]; [reflexivity |].
    simpl. rewrite fmap_app. reflexivity.
  - case_bool_decide as Hpts.
    { intros [= <- <-]. rewrite Hpts. reflexivity. }
    rewrite bool_decide_eq_false_2 by (intros Hg; apply fmap_nil_inv in Hg; auto).
    destruct (let? v := dict_getitem kwds "until" in int v) as [e1 | k];
      [intros [= <- <-]; reflexivity |].
    rewrite len_fmap, getitem_fmap.
    match goal with |- context [match ?s with inl _ => _ | inr _ => _ end] =>
      destruct s as [e2 | step] end; [intros [= <- <-]; reflexivity |].
    destruct (xrange 1 (k - 1)) as [e3 | idxs]; simpl;
      [intros [= <- <-]; reflexivity |].
    rewrite (comprehension_ext
      (fun idx => let? idxf := float_of_int idx in
                  let? i := int_of_float (idxf * step)%float in
                  getitem (g <$> _points self) i)
      (fun idx => rmap g (let? idxf := float_of_int idx in
                          let? i := int_of_float (idxf * step)%float in
                          getitem (_points self) i))).
    2:{ intros idx. destruct (float_of_int idx); simpl; [reflexivity |].
        destruct (int_of_float _); simpl; [reflexivity |].
        apply getitem_fmap. }
    rewrite comprehension_fmap.
    destruct (comprehension _ idxs) as [e4 | chosen]; simpl;
      [intros [= <- <-]; reflexivity |].
    destruct (getitem (_points self) (-1)) as [e5 | x]; simpl;
      intros [= <- <-]; [reflexivity |].
    simpl. rewrite fmap_app. reflexivity.
Qed.

(** Coarsening looks at positions only, never at coordinates: it
    commutes with [transform], [transform_x] and [transform_y], and raises
    or returns alike on the transformed series. *)
Theorem coarsen_commutes_with_transforms kwds self :
  (forall t,
      after (coarsen kwds) (after (transform t) self)
      = after (transform t) (after (coarsen kwds) self))
  /\ (forall f,
      after (coarsen kwds) (after (transform_x f) self)
      = after (transform_x f) (after (coarsen kwds) self))
  /\ (forall f,
      after (coarsen kwds) (after (transform_y f) self)
      = after (transform_y f) (after (coarsen kwds) self))
  /\ (forall t,
      outcome (coarsen kwds) (after (transform t) self)
      = outcome (coarsen kwds) self)
  /\ (forall f,
      outcome (coarsen kwds) (after (transform_x f) self)
      = outcome (coarsen kwds) self)
  /\ (forall f,
      outcome (coarsen kwds) (after (transform_y f) self)
      = outcome (coarsen kwds) self).
Proof.
  destruct (coarsen kwds self) as [self' r] eqn:Hc.
  repeat split; intros m; unfold after, outcome, transform, transform_x,
    transform_y; simpl;
    rewrite (coarsen_fmap kwds _ self self' r Hc), ?Hc; reflexivity.
Qed.

(** ** Transforms on both axes *)

(** [transform_x] and [transform_y] commute, and one after the other is
    a single [transform] with the pair of mappers. *)
Theorem transform_axes_commute f g self :
  after (transform_y g) (after (transform_x f) self)
  = after (transform_x f) (after (transform_y g) self)
  /\ after (transform_y g) (after (transform_x f) self)
     = after (transform (fun x y => (f x, g y))) self.
Proof.
  split; apply Curve_eq; unfold after, transform, transform_x, transform_y;
    cbn [fst _points]; rewrite <- !list_fmap_compose;
    apply list_fmap_ext; intros _ [x y] _; reflexivity.
Qed.

(** ** Performance curves: construction and the [data] property *)

Section PerformanceStateFacts.

Context {BinaryConfusionMatrix BinaryClassifierData raw threshold : Type}.
Variable structured : raw -> result BinaryClassifierData.
Variable iter_confusion_matrices :
  BinaryClassifierData ->
  list (threshold * BinaryConfusionMatrix) * option exn.
Variables fpr tpr recall precision : BinaryConfusionMatrix -> result float.
Context {factor : Type}.
Variable ExponentialTransformation :
  factor -> result (float -> result float).

(** What a successful construction went through. *)
Lemma BinaryClassifierPerformanceCurve_init_ok c data
    (x y : @metric BinaryConfusionMatrix) self :
  BinaryClassifierPerformanceCurve_init structured iter_confusion_matrices
    c data x y = ok self ->
  callable x = true /\ callable y = true
  /\ coerce structured data = ok (_data self)
  /\ _calculate_points iter_confusion_matrices (_data self) x y
     = ok (_points (curve self))
  /\ class_of self = c /\ x_func self = x /\ y_func self = y.
Proof.
  unfold BinaryClassifierPerformanceCurve_init.
  destruct (callable x); [| discriminate].
  destruct (callable y); [| discriminate]. simpl.
  destruct (coerce structured data) as [e | d]; [discriminate |]. simpl.
  destruct (_calculate_points iter_confusion_matrices d x y)
    as [e | points] eqn:Hpoints; [discriminate |].
  simpl. intros [= <-]. simpl. repeat split. exact Hpoints.
Qed.

Lemma callable_Callable (x : @metric BinaryConfusionMatrix) :
  callable x = true -> exists f, x = Callable f.
Proof. destruct x as [f | t]; [eauto | discriminate]. Qed.

(** [BinaryClassifierPerformanceCurve.__init__] checks [x_func] before
    [y_func], each failure being a [TypeError] naming the argument, and
    it can succeed only when both are callable. *)
Theorem performance_curve_callable_checks c data
    (x y : @metric BinaryConfusionMatrix) :
  (callable x = false ->
   BinaryClassifierPerformanceCurve_init structured iter_confusion_matrices
     c data x y = throw (TypeError "x_func must be callable"))
  /\ (callable x = true -> callable y = false ->
      BinaryClassifierPerformanceCurve_init structured
        iter_confusion_matrices c data x y
      = throw (TypeError "y_func must be callable"))
  /\ (forall self,
        BinaryClassifierPerformanceCurve_init structured
          iter_confusion_matrices c data x y = ok self ->
        callable x = true /\ callable y = true).
Proof.
  split; [| split].
  - unfold BinaryClassifierPerformanceCurve_init. intros ->. reflexivity.
  - unfold BinaryClassifierPerformanceCurve_init. intros -> ->. reflexivity.
  - intros self Hinit.
    apply BinaryClassifierPerformanceCurve_init_ok in Hinit as (Hx & Hy & _).
    split; assumption.
Qed.

(** A successfully constructed performance curve holds the dataset, the
    two metrics, and one point per confusion matrix of the dataset, in
    the order of the source: the i-th point is the pair of values of the
    metrics on the i-th matrix. *)
Theorem performance_curve_points c data
    (x y : @metric BinaryConfusionMatrix) self :
  BinaryClassifierPerformanceCurve_init structured iter_confusion_matrices
    c data x y = ok self ->
  exists fx fy,
    x = Callable fx /\ y = Callable fy
    /\ class_of self = c
    /\ coerce structured data = ok (_data self)
    /\ x_func self = x /\ y_func self = y
    /\ (iter_confusion_matrices (_data self)).2 = None
    /\ length (_points (curve self))
       = length (iter_confusion_matrices (_data self)).1
    /\ forall (i : nat) tm,
         (iter_confusion_matrices (_data self)).1 !! i = Some tm ->
         exists a b,
           fx tm.2 = ok a /\ fy tm.2 = ok b
           /\ _points (curve self) !! i = Some (a, b).
Proof.
  intros Hinit. apply BinaryClassifierPerformanceCurve_init_ok in Hinit
    as (Hx & Hy & Hd & Hp & Hc & Hxf & Hyf).
  apply callable_Callable in Hx as [fx ->].
  apply callable_Callable in Hy as [fy ->].
  apply _calculate_points_callable in Hp as [Hend Hp].
  exists fx, fy. repeat (split; [assumption || reflexivity |]).
  unfold metric_points in Hp. split.
  - symmetry. eapply Forall2_length, Hp.
  - intros i tm Htm.
    destruct (Forall2_lookup_l _ _ _ _ _ Hp Htm) as ([a b] & Hi & Ha & Hb).
    exists a, b. simpl in *. repeat split; assumption.
Qed.

(** The points of a constructed object are a cache of its dataset:
    whatever an inherited method ([coarsen], a transform) did to them,
    assigning the object's own dataset to [data] again restores the
    object as it was constructed. *)
Theorem data_reassignment_restores c data
    (x y : @metric BinaryConfusionMatrix) self {A} (m : meth Curve A) :
  BinaryClassifierPerformanceCurve_init structured iter_confusion_matrices
    c data x y = ok self ->
  set_data structured iter_confusion_matrices (inl (_data self))
           (after (inherited m) self)
  = (self, ok tt).
Proof.
  intros Hinit. apply BinaryClassifierPerformanceCurve_init_ok in Hinit
    as (_ & _ & _ & Hp & _ & Hx & Hy).
  rewrite <- Hx, <- Hy in Hp.
  unfold set_data, after, inherited.
  destruct (m (curve self)) as [c' r]. simpl. rewrite Hp.
  destruct self as [cl [pts] d xf yf]. reflexivity.
Qed.

(** Assigning a dataset keeps the class and the metrics.  When the
    assignment returns, the object holds the (coerced) dataset and its
    points are, whatever they were, the values of the metrics on the
    confusion matrices of that dataset, in order; when it raises, the
    points are untouched. *)
Theorem data_assignment_recomputes fx fy data
    (self self' : @BinaryClassifierPerformanceCurve BinaryConfusionMatrix
                    BinaryClassifierData) r :
  x_func self = Callable fx -> y_func self = Callable fy ->
  set_data structured iter_confusion_matrices data self = (self', r) ->
  class_of self' = class_of self
  /\ x_func self' = x_func self /\ y_func self' = y_func self
  /\ (r = ok tt ->
      coerce structured data = ok (_data self')
      /\ (iter_confusion_matrices (_data self')).2 = None
      /\ metric_points fx fy (iter_confusion_matrices (_data self')).1
                       (_points (curve self')))
  /\ (forall e, r = throw e -> curve self' = curve self).
Proof.
  intros Hx Hy. unfold set_data.
  destruct (coerce structured data) as [e | d] eqn:Hd.
  { intros [= <- <-].
    split; [| split; [| split; [| split]]]; try reflexivity;
      discriminate. }
  destruct (_calculate_points iter_confusion_matrices d
              (x_func self) (y_func self)) as [e | points] eqn:Hp.
  { intros [= <- <-]. simpl.
    split; [| split; [| split; [| split]]]; try reflexivity;
      discriminate. }
  intros [= <- <-]. simpl.
  rewrite Hx, Hy in Hp.
  apply _calculate_points_callable in Hp as [Hend Hp].
  split; [| split; [| split; [| split]]]; try reflexivity.
  - intros _. split; [reflexivity | split; assumption].
  - intros e; discriminate.
Qed.

(** [ROCCurve(data)] and [PrecisionRecallCurve(data)], when they return,
    return an object of their class that holds the (coerced) dataset and
    the points (fpr(m), tpr(m)), respectively (recall(m), precision(m)),
    for the confusion matrices m of the dataset in their order. *)
Theorem variant_constructors_bind_metrics data :
  (forall roc,
      ROCCurve structured iter_confusion_matrices fpr tpr data = ok roc ->
      class_of roc = cls_ROCCurve
      /\ coerce structured data = ok (_data roc)
      /\ (iter_confusion_matrices (_data roc)).2 = None
      /\ metric_points fpr tpr (iter_confusion_matrices (_data roc)).1
                       (_points (curve roc)))
  /\ (forall pr,
      PrecisionRecallCurve structured iter_confusion_matrices
                           recall precision data = ok pr ->
      class_of pr = cls_PrecisionRecallCurve
      /\ coerce structured data = ok (_data pr)
      /\ (iter_confusion_matrices (_data pr)).2 = None
      /\ metric_points recall precision
                       (iter_confusion_matrices (_data pr)).1
                       (_points (curve pr))).
Proof.
  split; intros obj Hobj;
    [rewrite ROCCurve_delegates in Hobj
    | rewrite PrecisionRecallCurve_delegates in Hobj];
    apply BinaryClassifierPerformanceCurve_init_ok in Hobj
      as (_ & _ & Hd & Hp & Hc & _);
    apply _calculate_points_callable in Hp as [Hend Hp];
    repeat split; assumption.
Qed.

(** What a metric raises on a confusion matrix is what the constructor
    raises: nothing in between catches it. *)
Lemma metric_exception_propagates c d t mat rest ending
    (fx fy : BinaryConfusionMatrix -> result float) e :
  iter_confusion_matrices d = ((t, mat) :: rest, ending) ->
  fx mat = throw e ->
  BinaryClassifierPerformanceCurve_init structured iter_confusion_matrices
    c (inl d) (Callable fx) (Callable fy) = throw e.
Proof.
  intros Hiter Hfx.
  unfold BinaryClassifierPerformanceCurve_init, coerce, _calculate_points.
  simpl. rewrite Hiter. simpl. rewrite Hfx. reflexivity.
Qed.

Lemma Forall2_same_source {A B C0} (P : A -> B -> Prop) (Q : A -> C0 -> Prop)
    l bs cs :
  Forall2 P l bs -> Forall2 Q l cs ->
  Forall2 (fun b c => exists a, P a b /\ Q a c) bs cs.
Proof.
  intros HP. revert cs. induction HP as [| a b l bs Hab _ IH]; intros cs HQ;
    inversion HQ; subst; constructor; eauto.
Qed.

(** When [ROCCurve(data)] and [CROCCurve(data, alpha)] both return, the
    CROC curve is the ROC curve of the same data with the transformation
    built from [alpha] applied to the x coordinate of each point; where
    the transformation is a total function this is [transform_x] of the
    ROC curve. *)
Theorem CROCCurve_is_transformed_ROCCurve data alpha roc croc T :
  ROCCurve structured iter_confusion_matrices fpr tpr data = ok roc ->
  CROCCurve structured iter_confusion_matrices fpr tpr
            ExponentialTransformation data alpha = ok (croc, T) ->
  ExponentialTransformation alpha = ok T
  /\ class_of croc = cls_CROCCurve
  /\ _data croc = _data roc
  /\ y_func croc = y_func roc
  /\ Forall2 (fun p q : point => T p.1 = ok q.1 /\ q.2 = p.2)
             (_points (curve roc)) (_points (curve croc))
  /\ (forall t : float -> float,
        (forall v, T v = ok (t v)) ->
        curve croc = after (transform_x t) (curve roc)).
Proof.
  rewrite ROCCurve_delegates. intros Hroc Hcroc.
  unfold CROCCurve, CROCCurve_init in Hcroc.
  apply rbind_error_free in Hcroc as (T' & HT & Hcroc).
  apply rbind_error_free in Hcroc as (croc' & Hcroc & Hpair).
  injection Hpair as -> ->.
  change (BinaryClassifierPerformanceCurve_init structured
            iter_confusion_matrices cls_CROCCurve data
            (Callable (_transformed_fpr fpr T)) (Callable tpr) = ok croc)
    in Hcroc.
  apply BinaryClassifierPerformanceCurve_init_ok in Hroc
    as (_ & _ & Hd1 & Hp1 & _ & _ & Hy1).
  apply BinaryClassifierPerformanceCurve_init_ok in Hcroc
    as (_ & _ & Hd2 & Hp2 & Hc2 & _ & Hy2).
  assert (Hd : _data croc = _data roc)
    by (rewrite Hd1 in Hd2; injection Hd2; auto).
  rewrite Hd in Hp2.
  apply _calculate_points_callable in Hp1 as [_ Hp1].
  apply _calculate_points_callable in Hp2 as [_ Hp2].
  pose proof (Forall2_same_source _ _ _ _ _ Hp1 Hp2) as Hboth.
  assert (Hpoints : Forall2 (fun p q : point => T p.1 = ok q.1 /\ q.2 = p.2)
                            (_points (curve roc)) (_points (curve croc))).
  { eapply Forall2_impl; [exact Hboth |].
    intros p q ([t mat] & [Hx1 Hy1'] & [Hx2 Hy2']). simpl in *.
    unfold _transformed_fpr in Hx2. rewrite Hx1 in Hx2. simpl in Hx2.
    split; [exact Hx2 |]. rewrite Hy1' in Hy2'. injection Hy2'; auto. }
  repeat split; try assumption; [congruence |].
  intros t Ht. apply Curve_eq. rewrite transform_x_points.
  clear -Hpoints Ht. induction Hpoints as [| p q ps qs [Hx Hy] _ IH];
    [reflexivity |].
  rewrite fmap_cons, <- IH. f_equal.
  destruct p as [px py], q as [qx qy]. simpl in *.
  rewrite Ht in Hx. injection Hx as <-. subst. reflexivity.
Qed.

End PerformanceStateFacts.

(** Witnesses: a matrix is represented by its pair of rates, a dataset by
    the list of its matrices. *)
Lemma performance_curve_points_witness :
  exists self,
    BinaryClassifierPerformanceCurve_init
      (fun r : list (float * float) => ok r)
      (fun d : list (float * float) => ((fun m => (tt, m)) <$> d, None))
      cls_ROCCurve (inl [(1, 1); (0.5, 1); (0, 0)]%float)
      (Callable (fun m => ok m.1)) (Callable (fun m => ok m.2)) = ok self
    /\ length (_points (curve self)) = 3%nat.
Proof.
  destruct (BinaryClassifierPerformanceCurve_init
              (fun r : list (float * float) => ok r)
              (fun d : list (float * float) => ((fun m => (tt, m)) <$> d, None))
              cls_ROCCurve (inl [(1, 1); (0.5, 1); (0, 0)]%float)
              (Callable (fun m => ok m.1)) (Callable (fun m => ok m.2)))
    as [e | self] eqn:H.
  - vm_compute in H. discriminate.
  - exists self. split; [reflexivity |].
    destruct (performance_curve_points _ _ _ _ _ _ _ H)
      as (fx & fy & _ & _ & _ & Hd & _ & _ & _ & Hlen & _).
    injection Hd as Hd. rewrite Hlen, <- Hd. reflexivity.
Defined.

Lemma data_reassignment_restores_witness :
  exists self,
    BinaryClassifierPerformanceCurve_init
      (fun r : list (float * float) => ok r)
      (fun d : list (float * float) => ((fun m => (tt, m)) <$> d, None))
      cls_ROCCurve (inl [(1, 1); (0.5, 1); (0.25, 0.5); (0, 0)]%float)
      (Callable (fun m => ok m.1)) (Callable (fun m => ok m.2)) = ok self
    /\ set_data (fun r : list (float * float) => ok r)
                (fun d : list (float * float) =>
                   ((fun m => (tt, m)) <$> d, None))
                (inl (_data self))
                (after (inherited (coarsen {[ "every" := VInt 2 ]})) self)
       = (self, ok tt).
Proof.
  destruct (BinaryClassifierPerformanceCurve_init
              (fun r : list (float * float) => ok r)
              (fun d : list (float * float) => ((fun m => (tt, m)) <$> d, None))
              cls_ROCCurve (inl [(1, 1); (0.5, 1); (0.25, 0.5); (0, 0)]%float)
              (Callable (fun m => ok m.1)) (Callable (fun m => ok m.2)))
    as [e | self] eqn:H.
  - vm_compute in H. discriminate.
  - exists self. split; [reflexivity |].
    exact (data_reassignment_restores _ _ _ _ _ _ _ _ H).
Defined.

Lemma data_assignment_recomputes_witness :
  exists self',
    set_data (fun r : list (float * float) => ok r)
             (fun d : list (float * float) => ((fun m => (tt, m)) <$> d, None))
             (inr [(1, 1); (0, 0)]%float)
             {| class_of := cls_ROCCurve; curve := {| _points := [] |};
                _data := []; x_func := Callable (fun m => ok m.1);
                y_func := Callable (fun m => ok m.2) |}
    = (self', ok tt)
    /\ length (_points (curve self')) = 2%nat.
Proof.
  destruct (set_data (fun r : list (float * float) => ok r)
              (fun d : list (float * float) => ((fun m => (tt, m)) <$> d, None))
              (inr [(1, 1); (0, 0)]%float)
              {| class_of := cls_ROCCurve; curve := {| _points := [] |};
                 _data := []; x_func := Callable (fun m => ok m.1);
                 y_func := Callable (fun m => ok m.2) |})
    as [self' r] eqn:Hrun.
  pose proof Hrun as Hr. vm_compute in Hr. injection Hr as _ Hr. subst r.
  exists self'. split; [reflexivity |].
  destruct (data_assignment_recomputes
              (fun r : list (float * float) => ok r)
              (fun d : list (float * float) => ((fun m => (tt, m)) <$> d, None))
              (fun m => ok m.1) (fun m => ok m.2)
              (inr [(1, 1); (0, 0)]%float)
              {| class_of := cls_ROCCurve; curve := {| _points := [] |};
                 _data := []; x_func := Callable (fun m => ok m.1);
                 y_func := Callable (fun m => ok m.2) |}
              self' (ok tt) eq_refl eq_refl Hrun)
    as (_ & _ & _ & Hok & _).
  destruct (Hok eq_refl) as (Hd & _ & Hp).
  apply Forall2_length in Hp. etrans; [symmetry; exact Hp |].
  injection Hd as Hd. rewrite <- Hd. reflexivity.
Defined.

Lemma variant_constructors_bind_metrics_witness :
  exists roc,
    ROCCurve (fun r : list (float * float) => ok r)
             (fun d : list (float * float) => ((fun m => (tt, m)) <$> d, None))
             (fun m => ok m.1) (fun m => ok m.2)
             (inl [(1, 1); (0.5, 1); (0, 0)]%float) = ok roc
    /\ class_of roc = cls_ROCCurve.
Proof.
  destruct (ROCCurve (fun r : list (float * float) => ok r)
              (fun d : list (float * float) => ((fun m => (tt, m)) <$> d, None))
              (fun m => ok m.1) (fun m => ok m.2)
              (inl [(1, 1); (0.5, 1); (0, 0)]%float))
    as [e | roc] eqn:Hroc.
  - vm_compute in Hroc. discriminate.
  - exists roc. split; [reflexivity |].
    destruct (variant_constructors_bind_metrics
                (fun r : list (float * float) => ok r)
                (fun d : list (float * float) =>
                   ((fun m => (tt, m)) <$> d, None))
                (fun m => ok m.1) (fun m => ok m.2)
                (fun m => ok m.1) (fun m => ok m.2)
                (inl [(1, 1); (0.5, 1); (0, 0)]%float)) as [H _].
    exact (proj1 (H roc Hroc)).
Defined.

Lemma CROCCurve_is_transformed_ROCCurve_witness :
  exists roc croc T,
    ROCCurve (fun r : list (float * float) => ok r)
             (fun d : list (float * float) => ((fun m => (tt, m)) <$> d, None))
             (fun m => ok m.1) (fun m => ok m.2)
             (inl [(1, 1); (0.5, 1); (0, 0)]%float) = ok roc
    /\ CROCCurve (fun r : list (float * float) => ok r)
                 (fun d : list (float * float) =>
                    ((fun m => (tt, m)) <$> d, None))
                 (fun m => ok m.1) (fun m => ok m.2)
                 (fun alpha : float => ok (fun v => ok (v * alpha)%float))
                 (inl [(1, 1); (0.5, 1); (0, 0)]%float) 2%float
       = ok (croc, T)
    /\ _data croc = _data roc.
Proof.
  destruct (ROCCurve (fun r : list (float * float) => ok r)
              (fun d : list (float * float) => ((fun m => (tt, m)) <$> d, None))
              (fun m => ok m.1) (fun m => ok m.2)
              (inl [(1, 1); (0.5, 1); (0, 0)]%float))
    as [e | roc] eqn:Hroc; [vm_compute in Hroc; discriminate |].
  destruct (CROCCurve (fun r : list (float * float) => ok r)
              (fun d : list (float * float) => ((fun m => (tt, m)) <$> d, None))
              (fun m => ok m.1) (fun m => ok m.2)
              (fun alpha : float => ok (fun v => ok (v * alpha)%float))
              (inl [(1, 1); (0.5, 1); (0, 0)]%float) 2%float)
    as [e | [croc T]] eqn:Hcroc; [vm_compute in Hcroc; discriminate |].
  exists roc, croc, T. split; [reflexivity |]. split; [reflexivity |].
  destruct (CROCCurve_is_transformed_ROCCurve _ _ _ _ _ _ _ _ _ _ Hroc Hcroc)
    as (_ & _ & Hd & _).
  exact Hd.
Defined.

(** ** Axis labels *)

(** [infer_label] gives back the label [axis_label] attached; the
    decorator changes neither the name nor any other attribute, a later
    label replaces an earlier one, and a function without label is
    labelled by its name. *)
Theorem axis_label_round_trip label func :
  infer_label (axis_label label func) = label
  /\ __name__ (axis_label label func) = __name__ func
  /\ (forall other, other <> "__axis_label__" ->
        __dict__ (axis_label label func) !! other = __dict__ func !! other)
  /\ (forall label', axis_label label' (axis_label label func)
                     = axis_label label' func)
  /\ (__dict__ func !! "__axis_label__" = None ->
        infer_label func = __name__ func).
Proof.
  unfold infer_label, axis_label. simpl. repeat split.
  - rewrite lookup_insert_eq. reflexivity.
  - intros other Hother. apply lookup_insert_ne. congruence.
  - intros label'. rewrite insert_insert_eq. reflexivity.
  - intros ->. reflexivity.
Qed.

(** ** [itersubclasses] *)

Section SubclassesFacts.

Context {C : Type} {C_eq_dec : EqDecision C} {C_countable : Countable C}.
Variable __subclasses__ : C -> list C.

Local Abbreviation direct := (direct_subclass __subclasses__).
Local Abbreviation traversed := (traversed __subclasses__).

Lemma for_subs_traversed recur :
  (forall c seen ys seen',
      recur c seen = Some (ys, seen') ->
      traversed (__subclasses__ c) seen ys seen') ->
  forall subs seen ys seen',
    for_subs recur subs seen = Some (ys, seen') ->
    traversed subs seen ys seen'.
Proof.
  intros Hrec. induction subs as [| sub subs IH]; intros seen ys seen'; simpl.
  - intros [= <- <-]. unfold traversed. repeat split.
    + set_solver.
    + constructor.
    + intros y Hy. inversion Hy.
    + intros y Hy. inversion Hy.
    + intros s Hs. inversion Hs.
    + intros y z Hy. inversion Hy.
  - destruct (decide (sub ∈ seen)) as [Hin | Hnew].
    + intros Hloop. apply IH in Hloop as (-> & Hnd & Hfresh & Hreach & Hst & Hcl).
      unfold traversed. repeat split; try assumption.
      * intros y Hy. destruct (Hreach y Hy) as (s & Hs & Hsy).
        exists s. split; [right; exact Hs | exact Hsy].
      * intros s Hs. apply elem_of_cons in Hs as [-> | Hs];
          [set_solver | apply Hst, Hs].
    + destruct (recur sub ({[sub]} ∪ seen)) as [[below seen1] |] eqn:Hsub;
        [| discriminate].
      destruct (for_subs recur subs seen1) as [[rest seen2] |] eqn:Hloop;
        [| discriminate].
      intros [= <- <-].
      apply Hrec in Hsub as (-> & Hnd1 & Hfresh1 & Hreach1 & Hst1 & Hcl1).
      apply IH in Hloop as (-> & Hnd2 & Hfresh2 & Hreach2 & Hst2 & Hcl2).
      unfold traversed. repeat split.
      * set_solver.
      * constructor.
        { intros Hsub. apply elem_of_app in Hsub as [Hsub | Hsub].
          - apply Hfresh1 in Hsub. set_solver.
          - apply Hfresh2 in Hsub. set_solver. }
        apply NoDup_app. split; [exact Hnd1 |]. split; [| exact Hnd2].
        intros y Hy1 Hy2. apply Hfresh2 in Hy2. set_solver.
      * intros y Hy. apply elem_of_cons in Hy as [-> | Hy]; [exact Hnew |].
        apply elem_of_app in Hy as [Hy | Hy].
        -- apply Hfresh1 in Hy. set_solver.
        -- apply Hfresh2 in Hy. set_solver.
      * intros y Hy. apply elem_of_cons in Hy as [-> | Hy].
        { exists sub. split; [left | reflexivity]. }
        apply elem_of_app in Hy as [Hy | Hy].
        -- destruct (Hreach1 y Hy) as (s & Hs & Hsy).
           exists sub. split; [left |]. eapply rtc_l; [exact Hs | exact Hsy].
        -- destruct (Hreach2 y Hy) as (s & Hs & Hsy).
           exists s. split; [right; exact Hs | exact Hsy].
      * intros s Hs. apply elem_of_cons in Hs as [-> | Hs];
          [set_solver | apply Hst2, Hs].
      * intros y z Hy Hyz. apply elem_of_cons in Hy as [-> | Hy].
        { specialize (Hst1 z Hyz). set_solver. }
        apply elem_of_app in Hy as [Hy | Hy].
        -- specialize (Hcl1 y z Hy Hyz). set_solver.
        -- exact (Hcl2 y z Hy Hyz).
Qed.

Lemma itersubclasses_from_traversed fuel :
  forall c seen ys seen',
    itersubclasses_from __subclasses__ fuel c seen = Some (ys, seen') ->
    traversed (__subclasses__ c) seen ys seen'.
Proof.
  induction fuel as [| fuel IH]; intros c seen ys seen'; simpl;
    [discriminate |].
  apply for_subs_traversed, IH.
Qed.

(** What [itersubclasses(cls)] yields, run to its end: every class below
    [cls] in the hierarchy (a subclass, a subclass of a subclass, ...),
    each exactly once, and nothing else. *)
Theorem itersubclasses_yields_descendants_once fuel c ys :
  itersubclasses __subclasses__ fuel (AClass c) = ok (Some ys) ->
  NoDup ys /\ forall d, d ∈ ys <-> tc direct c d.
Proof.
  unfold itersubclasses. intros [= Hrun].
  destruct (itersubclasses_from __subclasses__ fuel c ∅)
    as [[ys' seen'] |] eqn:Hfrom; [| discriminate].
  injection Hrun as ->.
  apply itersubclasses_from_traversed in Hfrom
    as (-> & Hnd & _ & Hreach & Hst & Hcl).
  assert (Hup : forall y d, rtc direct y d -> y ∈ ys -> d ∈ ys).
  { intros y d Hyd. induction Hyd as [| y z d Hyz _ IH]; [auto |].
    intros Hy. apply IH. specialize (Hcl y z Hy Hyz). set_solver. }
  split; [exact Hnd |]. intros d. split.
  - intros Hd. destruct (Hreach d Hd) as (s & Hs & Hsd).
    eapply tc_rtc_r; [apply tc_once, Hs | exact Hsd].
  - intros Hcd.
    inversion Hcd as [? ? Hdir | ? y ? Hdir Hyd]; subst.
    + specialize (Hst d Hdir). set_solver.
    + apply (Hup y d); [apply tc_rtc, Hyd |].
      specialize (Hst y Hdir). set_solver.
Qed.

(** With more fuel than there are unseen classes, a traversal inside a
    finite, closed set of classes does not run out of it. *)
Lemma itersubclasses_from_terminates (universe : gset C) :
  (forall x z, x ∈ universe -> direct x z -> z ∈ universe) ->
  forall fuel c seen,
    c ∈ universe -> (size (universe ∖ seen) < fuel)%nat ->
    is_Some (itersubclasses_from __subclasses__ fuel c seen).
Proof.
  intros Hclosed. induction fuel as [| fuel IH]; intros c seen Hc Hfuel;
    [lia |].
  simpl.
  assert (Hsubs : forall s, s ∈ __subclasses__ c -> s ∈ universe)
    by (intros s Hs; eapply Hclosed; [exact Hc | exact Hs]).
  assert (Hsize : (size (universe ∖ seen) <= fuel)%nat) by lia.
  clear Hfuel. revert seen Hsize.
  induction (__subclasses__ c) as [| sub subs IHsubs]; intros seen Hsize;
    simpl; [eauto |].
  destruct (decide (sub ∈ seen)) as [Hin | Hnew].
  - apply IHsubs; [intros s Hs; apply Hsubs; right; exact Hs | exact Hsize].
  - assert (Hsub : sub ∈ universe) by (apply Hsubs; left).
    destruct (IH sub ({[sub]} ∪ seen) Hsub) as [[below seen1] Hrun].
    { assert (universe ∖ ({[sub]} ∪ seen) ⊂ universe ∖ seen) by set_solver.
      apply subset_size in H. lia. }
    rewrite Hrun.
    apply itersubclasses_from_traversed in Hrun as (-> & _).
    destruct (IHsubs (fun s Hs => Hsubs s (list_elem_of_further _ _ _ Hs))
                ({[sub]} ∪ seen ∪ list_to_set below)) as [[rest seen2] ->].
    { etransitivity; [| exact Hsize]. apply subseteq_size. set_solver. }
    eauto.
Qed.

(** In a finite hierarchy, a set of classes closed under
    [__subclasses__], [itersubclasses] runs to its end: a recursion depth
    of one more than the number of classes is never exceeded. *)
Theorem itersubclasses_terminates (universe : gset C) c :
  (forall x z, x ∈ universe -> direct x z -> z ∈ universe) ->
  c ∈ universe ->
  exists ys,
    itersubclasses __subclasses__ (S (size universe)) (AClass c)
    = ok (Some ys).
Proof.
  intros Hclosed Hc.
  destruct (itersubclasses_from_terminates universe Hclosed
              (S (size universe)) c ∅ Hc) as [[ys seen] Hrun].
  { assert (universe ∖ ∅ ⊆ universe) by set_solver.
    apply subseteq_size in H. lia. }
  exists ys. unfold itersubclasses. rewrite Hrun. reflexivity.
Qed.

(** A call on something that is not a class raises [TypeError], whatever
    the hierarchy. *)
Lemma itersubclasses_not_a_class fuel repr :
  exists msg,
    itersubclasses __subclasses__ fuel (NotAClass repr)
    = throw (TypeError msg).
Proof. eexists. reflexivity. Qed.

End SubclassesFacts.

(** The docstring's example: B, D, E, C. *)
Lemma itersubclasses_yields_descendants_once_witness :
  itersubclasses docstring_subclasses 6 (AClass "A")
  = ok (Some ["B"; "D"; "E"; "C"])
  /\ NoDup ["B"; "D"; "E"; "C"]
  /\ forall d, d ∈ ["B"; "D"; "E"; "C"]
               <-> tc (direct_subclass docstring_subclasses) "A" d.
Proof.
  assert (Hrun : itersubclasses docstring_subclasses 6 (AClass "A")
                 = ok (Some ["B"; "D"; "E"; "C"]))
    by (vm_compute; reflexivity).
  split; [exact Hrun |].
  exact (itersubclasses_yields_descendants_once _ _ _ _ Hrun).
Defined.

Lemma itersubclasses_terminates_witness :
  exists ys,
    itersubclasses docstring_subclasses
      (S (size ({[ "A"; "B"; "C"; "D"; "E" ]} : gset string))) (AClass "A")
    = ok (Some ys).
Proof.
  apply (itersubclasses_terminates docstring_subclasses
           {[ "A"; "B"; "C"; "D"; "E" ]} "A").
  - intros x z Hx. unfold direct_subclass.
    repeat (apply elem_of_union in Hx as [Hx | Hx]);
      apply elem_of_singleton in Hx as ->; simpl; set_solver.
  - set_solver.
Defined.

(** ** [endless_generator] *)

Section EndlessGeneratorFacts.

Context {A W : Type}.
Variable func : W -> list A * W.

Lemma batches_add m1 m2 w :
  batches func (m1 + m2) w
  = ((batches func m1 w).1 ++ (batches func m2 (batches func m1 w).2).1,
     (batches func m2 (batches func m1 w).2).2).
Proof.
  revert w. induction m1 as [| m1 IH]; intros w; simpl.
  - destruct (batches func m2 w). reflexivity.
  - destruct (func w) as [items w1]. rewrite IH.
    destruct (batches func m1 w1) as [more w2]. simpl.
    rewrite app_assoc. reflexivity.
Qed.

(** One [next()] empties nothing but the front of the buffer, calling
    [func] only while there is nothing to hand out. *)
Lemma next_batches fuel :
  forall buffer w x buffer' w',
    next func fuel buffer w = Some (x, (buffer', w')) ->
    exists m,
      x :: buffer' = buffer ++ (batches func m w).1
      /\ w' = (batches func m w).2
      /\ forall m', (m' < m)%nat -> buffer ++ (batches func m' w).1 = [].
Proof.
  induction fuel as [| fuel IH]; intros buffer w x buffer' w';
    destruct buffer as [| y buffer]; simpl; try discriminate.
  - intros [= <- <- <-]. exists 0%nat. simpl. rewrite app_nil_r.
    repeat split. intros m' Hm'. lia.
  - destruct (func w) as [items w1] eqn:Hf. intros Hnext.
    apply IH in Hnext as (m & Hitems & -> & Hlazy).
    exists (S m). simpl. rewrite Hf.
    destruct (batches func m w1) as [more w2] eqn:Hb. simpl in *.
    repeat split; [exact Hitems |].
    intros [| m'] Hm'; simpl; [reflexivity |].
    rewrite Hf. specialize (Hlazy m' ltac:(lia)).
    destruct (batches func m' w1). exact Hlazy.
  - intros [= <- <- <-]. exists 0%nat. simpl. rewrite app_nil_r.
    repeat split. intros m' Hm'. lia.
Qed.

Lemma take_items_batches fuel n :
  forall buffer w xs buffer' w',
    take_items func fuel n buffer w = Some (xs, (buffer', w')) ->
    exists m,
      xs ++ buffer' = buffer ++ (batches func m w).1
      /\ w' = (batches func m w).2
      /\ length xs = n
      /\ forall m', (m' < m)%nat ->
           (length (buffer ++ (batches func m' w).1) < n)%nat.
Proof.
  induction n as [| n IH]; intros buffer w xs buffer' w'; simpl.
  - intros [= <- <- <-]. exists 0%nat. simpl. rewrite app_nil_r.
    repeat split. intros m' Hm'. lia.
  - destruct (next func fuel buffer w) as [[x [b1 w1]] |] eqn:Hnext;
      [| discriminate].
    destruct (take_items func fuel n b1 w1) as [[xs' [b2 w2]] |] eqn:Htake;
      [| discriminate].
    intros [= <- <- <-].
    apply next_batches in Hnext as (m1 & Hx & -> & Hlazy1).
    apply IH in Htake as (m2 & Hxs & -> & Hlen & Hlazy2).
    exists (m1 + m2)%nat. rewrite batches_add. simpl.
    split; [rewrite Hxs, app_comm_cons, Hx, app_assoc; reflexivity |].
    split; [reflexivity |]. split; [rewrite Hlen; reflexivity |].
    intros m' Hm'. destruct (decide (m' < m1)%nat) as [Hlt | Hge].
    + rewrite (Hlazy1 m' Hlt). simpl. lia.
    + replace m' with (m1 + (m' - m1))%nat by lia.
      rewrite batches_add. simpl. rewrite app_assoc, <- Hx.
      specialize (Hlazy2 (m' - m1)%nat ltac:(lia)). simpl. lia.
Qed.

(** The first n items of a fresh generator, with what is left in its
    buffer, are exactly the items of the first m calls of [func], in
    order, for some m; and each call was needed: the calls before it
    gave fewer than n items. *)
Theorem endless_generator_yields_batches fuel n w xs buffer' w' :
  take_items func fuel n [] w = Some (xs, (buffer', w')) ->
  exists m,
    xs ++ buffer' = (batches func m w).1
    /\ w' = (batches func m w).2
    /\ length xs = n
    /\ forall m', (m' < m)%nat -> (length (batches func m' w).1 < n)%nat.
Proof. apply take_items_batches. Qed.

(** When every batch has an item, each [next()] needs at most one call
    of [func]: any number of items can be taken. *)
Theorem endless_generator_progress n buffer w :
  (forall w0, (func w0).1 <> []) ->
  is_Some (take_items func 1 n buffer w).
Proof.
  intros Hne. revert buffer w. induction n as [| n IH]; intros buffer w;
    [simpl; eauto |].
  assert (Hnext : exists x b1 w1, next func 1 buffer w = Some (x, (b1, w1))).
  { destruct buffer as [| y buffer]; simpl; [| eauto].
    specialize (Hne w). destruct (func w) as [[| x items] w1]; simpl in *;
      [congruence | eauto]. }
  destruct Hnext as (x & b1 & w1 & Hnext).
  destruct (IH b1 w1) as [[xs [b2 w2]] Htake].
  cbn [take_items]. rewrite Hnext, Htake. eauto.
Qed.

(** When [func] never returns an item, the generator of an empty buffer
    never yields: however many calls are allowed, [next()] does not
    return. *)
Theorem endless_generator_stalls fuel w :
  (forall w0, (func w0).1 = []) -> next func fuel [] w = None.
Proof.
  intros Hempty. revert w. induction fuel as [| fuel IH]; intros w; simpl;
    [reflexivity |].
  specialize (Hempty w). destruct (func w) as [items w1]. simpl in Hempty.
  subst items. apply IH.
Qed.

End EndlessGeneratorFacts.

Lemma endless_generator_yields_batches_witness :
  take_items (fun w : nat => ([w; w], S w)) 1 3 [] 5%nat
  = Some ([5; 5; 6]%nat, ([6%nat], 7%nat))
  /\ exists m,
      [5; 5; 6]%nat ++ [6%nat]
      = (batches (fun w : nat => ([w; w], S w)) m 5%nat).1
      /\ 7%nat = (batches (fun w : nat => ([w; w], S w)) m 5%nat).2
      /\ length [5; 5; 6]%nat = 3%nat
      /\ forall m', (m' < m)%nat ->
           (length (batches (fun w : nat => ([w; w], S w)) m' 5%nat).1 < 3)%nat.
Proof.
  assert (Hrun : take_items (fun w : nat => ([w; w], S w)) 1 3 [] 5%nat
                 = Some ([5; 5; 6]%nat, ([6%nat], 7%nat))) by reflexivity.
  split; [exact Hrun |].
  exact (endless_generator_yields_batches _ _ _ _ _ _ _ Hrun).
Defined.

Lemma endless_generator_progress_witness :
  is_Some (take_items (fun w : nat => ([w; w], S w)) 1 10 [] 0%nat).
Proof.
  apply endless_generator_progress. intros w0. discriminate.
Defined.

Lemma endless_generator_stalls_witness :
  next (fun w : nat => (@nil nat, S w)) 1000 [] 0%nat = None.
Proof.
  apply endless_generator_stalls. intros w0. reflexivity.
Defined.

(** ** Plotting *)

Section PlottingFacts.

Context {World Figure Axes Artist : Type}.
Variable get_empty_figure :
  list object -> gmap string object -> act World Figure.
Variable get_axes : Figure -> act World (list Axes).
Variable axes_plot :
  Axes -> list float -> list float -> object -> act World Artist.
Variable axes_legend : Axes -> Artist -> string -> object -> act World unit.
Variable figure_show : Figure -> act World unit.

Lemma and_then_returns {W A B} (m : act W A) (k : A -> act W B) w w' b :
  and_then m k w = (w', inr b) ->
  exists w1 a, m w = (w1, inr a) /\ k a w1 = (w', inr b).
Proof.
  unfold and_then. destruct (m w) as [w1 [e | a]]; [discriminate | eauto].
Qed.

(** Drawing needs points: on an empty series [plot_on_axes] raises
    [ValueError] before anything is drawn. *)
Theorem plot_on_axes_empty data_title axes style legend w :
  plot_on_axes axes_plot axes_legend [] data_title axes style legend w
  = (w, inl (Raised (ValueError "need more than 0 values to unpack"))).
Proof. reflexivity. Qed.

Lemma plot_on_axes_returns points data_title axes style legend w w' curve :
  plot_on_axes axes_plot axes_legend points data_title axes style legend w
  = (w', inr curve) ->
  points <> []
  /\ (legend = ONone \/ legend = OBool false
      \/ exists title, data_title = inr title).
Proof.
  unfold plot_on_axes. intros Hrun.
  apply and_then_returns in Hrun as (w1 & xy & Hxy & Hrun).
  apply and_then_returns in Hrun as (w2 & artist & _ & Hrun).
  split.
  - intros ->. discriminate.
  - destruct legend as [| [|] | z | s]; auto;
      apply and_then_returns in Hrun as (w3 & title & Ht & _);
      right; right; exists title; unfold evaluate in Ht; congruence.
Qed.

(** [get_figure] returns a figure only when the [legend] keyword is
    given and the series has a point: without the keyword the local
    variable is read unbound. *)
Theorem get_figure_returns points data_title args kwds w w' fig :
  get_figure get_empty_figure get_axes axes_plot axes_legend
             points data_title args kwds w = (w', inr fig) ->
  is_Some (kwds !! "legend") /\ points <> [].
Proof.
  unfold get_figure. intros Hrun.
  apply and_then_returns in Hrun as (w1 & fig1 & _ & Hrun).
  apply and_then_returns in Hrun as (w2 & all_axes & _ & Hrun).
  apply and_then_returns in Hrun as (w3 & axes & _ & Hrun).
  apply and_then_returns in Hrun as (w4 & legend & Hlegend & Hrun).
  apply and_then_returns in Hrun as (w5 & curve & Hplot & _).
  apply plot_on_axes_returns in Hplot as [Hpoints _].
  split; [| exact Hpoints].
  destruct (kwds !! "legend"); [eauto | discriminate].
Qed.

(** On an instance of [Curve] itself, [get_figure] and [show] return
    only when called with [legend=None] or [legend=False]: any other
    legend makes [plot_on_axes] read [self._data], which a [Curve] does
    not have. *)
Theorem Curve_get_figure_returns points args kwds w w' :
  ((exists fig,
      get_figure get_empty_figure get_axes axes_plot axes_legend
                 points Curve_data_title args kwds w = (w', inr fig))
   \/ show get_empty_figure get_axes axes_plot axes_legend figure_show
           points Curve_data_title args kwds w = (w', inr tt)) ->
  kwds !! "legend" = Some ONone \/ kwds !! "legend" = Some (OBool false).
Proof.
  assert (Hget : forall w' fig,
    get_figure get_empty_figure get_axes axes_plot axes_legend
               points Curve_data_title args kwds w = (w', inr fig) ->
    kwds !! "legend" = Some ONone \/ kwds !! "legend" = Some (OBool false)).
  { clear w'. intros w' fig. unfold get_figure. intros Hrun.
    apply and_then_returns in Hrun as (w1 & fig1 & _ & Hrun).
    apply and_then_returns in Hrun as (w2 & all_axes & _ & Hrun).
    apply and_then_returns in Hrun as (w3 & axes & _ & Hrun).
    apply and_then_returns in Hrun as (w4 & legend & Hlegend & Hrun).
    apply and_then_returns in Hrun as (w5 & curve & Hplot & _).
    apply plot_on_axes_returns in Hplot as [_ Hplot].
    destruct (kwds !! "legend") as [given |]; [| discriminate].
    unfold pure in Hlegend. injection Hlegend as _ ->.
    destruct Hplot as [-> | [-> | [title Ht]]]; [auto | auto | discriminate]. }
  intros [[fig Hrun] | Hrun]; [eapply Hget, Hrun |].
  unfold show in Hrun.
  apply and_then_returns in Hrun as (w1 & fig & Hrun & _).
  eapply Hget, Hrun.
Qed.

End PlottingFacts.

(** Witnesses: matplotlib's state is the number of calls made so far. *)
Lemma get_figure_returns_witness :
  is_Some (({[ "legend" := OBool false ]} : gmap string object) !! "legend")
  /\ [(1, 1); (0, 0)]%float <> [].
Proof.
  apply (get_figure_returns
           (fun (_ : list object) (_ : gmap string object) (w : nat) =>
              (S w, inr tt))
           (fun (_ : unit) (w : nat) => (w, inr [tt]))
           (fun (_ : unit) (_ _ : list float) (_ : object) (w : nat) =>
              (S w, inr tt))
           (fun (_ _ : unit) (_ : string) (_ : object) (w : nat) =>
              (S w, inr tt))
           [(1, 1); (0, 0)]%float Curve_data_title []
           {[ "legend" := OBool false ]} 0%nat 2%nat tt).
  vm_compute. reflexivity.
Defined.

Lemma Curve_get_figure_returns_witness :
  ({[ "legend" := OBool false ]} : gmap string object) !! "legend"
  = Some ONone
  \/ ({[ "legend" := OBool false ]} : gmap string object) !! "legend"
     = Some (OBool false).
Proof.
  apply (Curve_get_figure_returns
           (fun (_ : list object) (_ : gmap string object) (w : nat) =>
              (S w, inr tt))
           (fun (_ : unit) (w : nat) => (w, inr [tt]))
           (fun (_ : unit) (_ _ : list float) (_ : object) (w : nat) =>
              (S w, inr tt))
           (fun (_ _ : unit) (_ : string) (_ : object) (w : nat) =>
              (S w, inr tt))
           (fun (_ : unit) (w : nat) => (S w, inr tt))
           [(1, 1); (0, 0)]%float [] {[ "legend" := OBool false ]}
           0%nat 3%nat).
  right. vm_compute. reflexivity.
Defined.

(** ** [coarsen(until=k)], counted *)

(** A [coarsen(until=k)] that returns on a series with a point leaves
    max(k-2, 0) + 1 points, the last of them the original last point. *)
Theorem coarsen_until_leaves kwds self self' k :
  kwds !! "until" = Some (VInt k) -> kwds !! "every" = None ->
  _points self <> [] ->
  coarsen kwds self = (self', ok tt) ->
  len (_points self') = Z.max (k - 2) 0 + 1
  /\ last (_points self') = last (_points self).
Proof.
  intros Hun Hev Hpts Hc.
  destruct (coarsen_until_count _ _ _ _ Hun Hev Hpts Hc) as (Hlen & Hlast & _).
  split; assumption.
Qed.

Lemma coarsen_until_leaves_witness :
  len [(0.25, 0.5); (0, 0)]%float = Z.max (3 - 2) 0 + 1
  /\ last [(0.25, 0.5); (0, 0)]%float
     = last [(1, 1); (0.25, 0.5); (0, 0)]%float.
Proof.
  apply (coarsen_until_leaves {[ "until" := VInt 3 ]}
           {| _points := [(1, 1); (0.25, 0.5); (0, 0)]%float |}
           {| _points := [(0.25, 0.5); (0, 0)]%float |} 3);
    [reflexivity | reflexivity | discriminate | vm_compute; reflexivity].
Defined.

(** ** Witnesses for the counting lemmas of [coarsen] *)

Lemma coarsen_never_empties_witness :
  _points (after (coarsen {[ "until" := VInt 2 ]})
             {| _points := [(1, 1); (0.5, 0.75); (0, 0)]%float |}) <> [].
Proof.
  apply (coarsen_never_empties {[ "until" := VInt 2 ]}
           {| _points := [(1, 1); (0.5, 0.75); (0, 0)]%float |}).
  discriminate.
Defined.

Lemma coarsen_every_count_witness :
  outcome (coarsen {[ "every" := VInt 2 ]})
          {| _points := [(1, 1); (0.5, 0.75); (0, 0)]%float |} = ok tt
  /\ len (_points (after (coarsen {[ "every" := VInt 2 ]})
                     {| _points := [(1, 1); (0.5, 0.75); (0, 0)]%float |}))
     = 3.
Proof.
  destruct (coarsen_every_count {[ "every" := VInt 2 ]}
              {| _points := [(1, 1); (0.5, 0.75); (0, 0)]%float |} 2)
    as (Hok & Hlen & _); [reflexivity | reflexivity | discriminate | lia |].
  split; [exact Hok | rewrite Hlen; reflexivity].
Defined.

Lemma coarsen_every_divisible_witness :
  last (_points (after (coarsen {[ "every" := VInt 2 ]})
                   {| _points :=
                        [(1, 1); (0.75, 0.5); (0.5, 0.25); (0, 0)]%float |}))
  = Some (0.5, 0.25)%float.
Proof.
  rewrite (coarsen_every_divisible {[ "every" := VInt 2 ]}
             {| _points :=
                  [(1, 1); (0.75, 0.5); (0.5, 0.25); (0, 0)]%float |} 2);
    [reflexivity | reflexivity | reflexivity | discriminate | lia
     | reflexivity].
Defined.


